(** * SDU battery preprocessing: a shallow embedding of [preprocess_SDU.py]

    The development follows [src/preprocess_SDU.py] and the script
    [src/process_second_life_phase.py] that runs it:

    - [organize_cycle_index] and [calc_Q] are the two [@njit] helpers.  They
      work on arrays that are updated in place; here an array is a list that is
      read with [!!] and written with [<[ i := x ]>].  A read outside the array
      makes the function return [None].
    - [SDUPreprocessor.process] is a loop over files and battery groups that
      talks to three collaborators (the skip check, the dump and the console).
      It is embedded in a state-and-exception monad over a [World], which
      holds the state of the output directory and the trace of what the run
      did to the outside.
    - [process_second_life_phase] and the [__main__] block of the script run
      in the same monad; the script adds a handler for the exceptions of
      [process] and returns an exit status.

    Modelling conventions.

    - Floating point numbers are idealised as rationals ([Q]); NaN, infinities
      and rounding are outside the model.  Float literals are written as the
      fraction they denote ([0.1] is [1 # 10]).  The current, time and voltage
      columns are taken to be float columns.
    - Raw cycle indices and battery identifiers are mathematical integers
      ([Z]); counters are natural numbers.
    - A readable file is the list of its rows with the five columns that the
      code uses.  A file on which [pd.read_csv] raises carries the exception.
    - [pandas], [numpy] and [scipy] functions are modelled by what their
      documentation says on the inputs that occur here.  [sort_values] is a
      stable sort; pandas promises no order for rows with equal times, and
      the statements below that name [sort_values] are to be read with the
      stable order on such rows.
    - [check_processed_file] and [dump_single_file] come from the base class,
      which is not part of the two source files: they are parameters of the
      driver, and are assumed to return. *)

From Stdlib Require Import QArith Qabs Lqa.
From Stdlib Require Import DecimalString Sorted.
From stdpp Require Import base list strings.

Local Open Scope Q_scope.

(** ** Comparisons on rationals as booleans *)

Definition Qlt_bool (x y : Q) : bool := negb (Qle_bool y x).

(** ** A left-to-right loop that can fail *)

Fixpoint foldl_opt {A B : Type} (f : A → B → option A) (a : A) (l : list B)
  : option A :=
  match l with
  | [] => Some a
  | b :: l' => match f a b with
               | Some a' => foldl_opt f a' l'
               | None => None
               end
  end.

(** [range(1, n)] of Python. *)
Definition range1 (n : nat) : list nat := seq 1 (n - 1).

(** ** [organize_cycle_index] (lines 172-183) *)

(** The loop state: the array, [current_cycle] and [prev_value]. *)
Record norm_state := NormState {
  cycle_index : list Z;
  current_cycle : Z;
  prev_value : Z
}.

(** One iteration of the [for] loop, at position [i]. *)
Definition organize_step (st : norm_state) (i : nat) : option norm_state :=
  match cycle_index st !! i with
  | None => None
  | Some x =>
      let st' :=
        if bool_decide (x ≠ prev_value st)
        then NormState (cycle_index st) (current_cycle st + 1)%Z x
        else st in
      Some (NormState (<[ i := current_cycle st' ]> (cycle_index st'))
                      (current_cycle st') (prev_value st'))
  end.

(** [cycle_index[0]] is read before the loop: on an empty array the read is
    out of range and the function does not return an array. *)
Definition organize_cycle_index (raw : list Z) : option (list Z) :=
  match raw !! 0%nat with
  | None => None
  | Some first =>
      match foldl_opt organize_step (NormState raw first first)
                      (range1 (length raw)) with
      | Some st => Some (cycle_index st)
      | None => None
      end
  end.

(** ** [calc_Q] (lines 156-169) *)

(** One iteration of the [for] loop of [calc_Q], at position [i].  [I[i]] is
    read first; the time samples are read only in the branch that uses
    them. *)
Definition calc_Q_step (I t : list Q) (is_charge : bool) (Qs : list Q)
    (i : nat) : option (list Q) :=
  match I !! i, Qs !! (i - 1)%nat with
  | Some Ii, Some Qp =>
      if is_charge && Qlt_bool 0 Ii then
        match t !! i, t !! (i - 1)%nat with
        | Some ti, Some tp => Some (<[ i := Qp + Ii * (ti - tp) / 3600 ]> Qs)
        | _, _ => None
        end
      else if negb is_charge && Qlt_bool Ii 0 then
        match t !! i, t !! (i - 1)%nat with
        | Some ti, Some tp => Some (<[ i := Qp - Ii * (ti - tp) / 3600 ]> Qs)
        | _, _ => None
        end
      else Some (<[ i := Qp ]> Qs)
  | _, _ => None
  end.

(** [Q = np.zeros_like(I)], then the loop over [range(1, len(I))]. *)
Definition calc_Q (I t : list Q) (is_charge : bool) : option (list Q) :=
  foldl_opt (calc_Q_step I t is_charge) (replicate (length I) 0)
            (range1 (length I)).

(** ** Data model *)

(** One row of a raw file, with the columns ['Battery_ID'], ['Cycle_Index'],
    ['Test_Time(s)'], ['Current(A)'] and ['Voltage(V)'].  The ['date'] column
    that the code adds is the same constant in every row and is left out. *)
Record Row := mkRow {
  Battery_ID : Z;
  Cycle_Index : Z;
  Test_Time : Q;
  Current : Q;
  Voltage : Q
}.

Record CycleData := mkCycleData {
  cycle_number : nat;
  voltage_in_V : list Q;
  current_in_A : list Q;
  time_in_s : list Q;
  charge_capacity_in_Ah : list Q;
  discharge_capacity_in_Ah : list Q
}.

Definition set_cycle_number (c : CycleData) (n : nat) : CycleData :=
  mkCycleData n (voltage_in_V c) (current_in_A c) (time_in_s c)
              (charge_capacity_in_Ah c) (discharge_capacity_in_Ah c).

Record BatteryData := mkBatteryData {
  cell_id : string;
  form_factor : string;
  anode_material : string;
  cathode_material : string;
  cycle_data : list CycleData;
  nominal_capacity_in_Ah : Q;
  max_voltage_limit_in_V : Q;
  min_voltage_limit_in_V : Q;
  SOC_interval : list Q
}.

(** Python exceptions, with their message. *)
Inductive exn :=
| ValueError (msg : string)
| IndexError (msg : string)
| ReadError (msg : string).

Definition str_exn (e : exn) : string :=
  match e with ValueError m | IndexError m | ReadError m => m end.

Inductive result (A : Type) :=
| Ok (a : A)
| Raise (e : exn).
Arguments Ok {A} a.
Arguments Raise {A} e.

(** A [Path] from [glob]: its full text, its [name], and what [pd.read_csv]
    does on it. *)
Record csv_file := mkCsvFile {
  path : string;
  name : string;
  read_csv : result (list Row)
}.

(** ** Library functions used by the pipeline *)

(** [str] of an integer and of a length. *)
Definition str_Z (z : Z) : string := NilZero.string_of_int (Z.to_int z).
Definition str_nat (n : nat) : string := NilZero.string_of_uint (Nat.to_uint n).

(** Sorted distinct keys, as [groupby] orders its groups. *)
Fixpoint insert_key (k : Z) (ks : list Z) : list Z :=
  match ks with
  | [] => [k]
  | k' :: rest =>
      if (k <? k')%Z then k :: ks
      else if (k =? k')%Z then ks
      else k' :: insert_key k rest
  end.

Definition sorted_keys (ks : list Z) : list Z := foldr insert_key [] ks.

(** [df.groupby(key)]: one group per distinct key, in increasing key order,
    the rows of a group in the order they have in [df]. *)
Definition groupby (key : Row → Z) (df : list Row) : list (Z * list Row) :=
  map (λ k, (k, filter (λ r, key r = k) df)) (sorted_keys (map key df)).

(** [df.sort_values(['Test_Time(s)'])], as a stable insertion sort. *)
Fixpoint insert_row (r : Row) (rs : list Row) : list Row :=
  match rs with
  | [] => [r]
  | r' :: rest =>
      if Qle_bool (Test_Time r) (Test_Time r') then r :: rs
      else r' :: insert_row r rest
  end.

Definition sort_values (df : list Row) : list Row := foldr insert_row [] df.

(** Sorting a list of numbers. *)
Fixpoint insert_Q (x : Q) (l : list Q) : list Q :=
  match l with
  | [] => [x]
  | y :: rest => if Qle_bool x y then x :: l else y :: insert_Q x rest
  end.

Definition sort_Q (l : list Q) : list Q := foldr insert_Q [] l.

(** Python's [max]: the first largest element; it raises on an empty list
    ([None] here). *)
Definition py_max (l : list Q) : option Q :=
  match l with
  | [] => None
  | x :: rest => Some (fold_left (λ m y, if Qlt_bool m y then y else m) rest x)
  end.

(** [scipy.signal.medfilt(volume, kernel_size)] on a one-dimensional input:
    every kernel size must be odd, otherwise [ValueError]; the input is padded
    with zeros and the output at [i] is the middle element of the sorted
    window centred at [i]. *)
Definition medfilt (volume : list Q) (kernel_size : nat) : result (list Q) :=
  if negb (kernel_size mod 2 =? 1)%nat then
    Raise (ValueError "Each element of kernel_size should be odd.")
  else
    let h := (kernel_size / 2)%nat in
    let padded := replicate h 0 ++ volume ++ replicate h 0 in
    Ok (map (λ i, nth h (sort_Q (take kernel_size (drop i padded))) 0)
            (seq 0 (length volume))).

(** [np.median] of a non-empty list: the middle element of the sorted list,
    or the mean of the two middle elements. *)
Definition median (l : list Q) : Q :=
  let s := sort_Q l in
  let n := length s in
  if Nat.even n then (nth (n / 2 - 1) s 0 + nth (n / 2) s 0) / 2
  else nth (n / 2) s 0.

(** [np.mean] of a non-empty list. *)
Definition mean (l : list Q) : Q :=
  fold_left Qplus l 0 / inject_Z (Z.of_nat (length l)).

(** ** The outlier filter inside [process] (lines 96-122) *)

(** Lines 97-102: the peak discharge capacity of every cycle. *)
Definition peak (c : CycleData) : Q :=
  match py_max (discharge_capacity_in_Ah c) with
  | Some m => m
  | None => 0
  end.

Definition peaks (cycles : list CycleData) : list Q := map peak cycles.

(** Lines 109-112: the kernel size handed to [medfilt]. *)
Definition kernel_size (n : nat) : nat :=
  if (21 <=? n)%nat then 21%nat else Nat.min n 5.

Definition smooth (Qd : list Q) : result (list Q) :=
  medfilt Qd (kernel_size (length Qd)).

(** Line 114 and 115: [abs(np.array(Qd) - Qd_med)], its median [ths] and the
    mask [should_keep]. *)
Definition deviations (Qd Qd_med : list Q) : list Q :=
  zip_with (λ q m, Qabs (q - m)) Qd Qd_med.

Definition ths (Qd Qd_med : list Q) : Q := median (deviations Qd Qd_med).

Definition should_keep (Qd Qd_med : list Q) : list bool :=
  map (λ d, Qlt_bool d (3 * ths Qd Qd_med)) (deviations Qd Qd_med).

(** Lines 117-122: the loop that collects and renumbers the clean cycles.
    The state is [(clean_cycles, index)]. *)
Definition clean_step (cycles : list CycleData) (keep : list bool)
    (Qd : list Q) (st : list CycleData * nat) (i : nat)
  : option (list CycleData * nat) :=
  let '(clean_cycles, index) := st in
  match keep !! i, Qd !! i, cycles !! i with
  | Some k, Some q, Some c =>
      if k && Qlt_bool (1 # 10) q
      then Some (clean_cycles ++ [set_cycle_number c (S index)], S index)
      else Some st
  | _, _, _ => None
  end.

Definition clean_loop (cycles : list CycleData) (keep : list bool)
    (Qd : list Q) : option (list CycleData * nat) :=
  foldl_opt (clean_step cycles keep Qd) ([], 0%nat) (seq 0 (length cycles)).

(** ** [SDUPreprocessor.process] (lines 21-153) *)

(** What the run does to the outside, in order: console output, calls of the
    skip check with the answer they got, and calls of the dump. *)
Inductive event :=
| Print (line : string)
| TqdmWrite (line : string)
| CheckProcessed (key : string) (answer : bool)
| Dump (battery : BatteryData).

(** The key under which battery [battery_id] is checked and stored. *)
Definition cell_key (battery_id : Z) : string :=
  "CSV_" +:+ ("Battery_" +:+ str_Z battery_id).

(** Console lines that are printed only when [silent] is off. *)
Definition note (silent : bool) (line : string) : list event :=
  if silent then [] else [Print line].

Definition is_dump (ev : event) : bool :=
  match ev with Dump _ => true | _ => false end.

Definition is_skip (ev : event) : bool :=
  match ev with CheckProcessed _ true => true | _ => false end.

Definition count_dumps (tr : list event) : nat :=
  length (List.filter is_dump tr).
Definition count_skips (tr : list event) : nat :=
  length (List.filter is_skip tr).

Section Driver.

(** The two collaborators inherited from [BasePreprocessor], over the state
    [St] of the output directory.  They are assumed not to raise. *)
Variable St : Type.
Variable check_processed_file : string → St → bool.
Variable dump_single_file : BatteryData → St → St.

Record World := mkWorld {
  store : St;
  trace : list event
}.

(** Computations that read and change the world and may raise. *)
Definition M (A : Type) : Type := World → result A * World.

Definition ret {A} (a : A) : M A := λ w, (Ok a, w).

Definition bind {A B} (m : M A) (k : A → M B) : M B :=
  λ w, match m w with
       | (Ok a, w') => k a w'
       | (Raise e, w') => (Raise e, w')
       end.

Definition raise {A} (e : exn) : M A := λ w, (Raise e, w).

Definition emit (ev : event) : M unit :=
  λ w, (Ok tt, mkWorld (store w) (trace w ++ [ev])).

Definition print (line : string) : M unit := emit (Print line).

Definition when (b : bool) (m : M unit) : M unit := if b then m else ret tt.

Definition check (key : string) : M bool :=
  λ w, let b := check_processed_file key (store w) in
       (Ok b, mkWorld (store w) (trace w ++ [CheckProcessed key b])).

Definition dump (battery : BatteryData) : M unit :=
  λ w, (Ok tt, mkWorld (dump_single_file battery (store w))
                       (trace w ++ [Dump battery])).

Definition of_result {A} (r : result A) : M A := λ w, (r, w).

Definition of_option {A} (o : option A) (e : exn) : M A :=
  match o with Some a => ret a | None => raise e end.

Notation "x <- m ;; k" := (bind m (λ x, k))
  (at level 100, m at next level, right associativity).
Notation "m ;;; k" := (bind m (λ _, k))
  (at level 100, right associativity).

(** A [for] loop that threads the two counters. *)
Fixpoint for_each {A B} (l : list A) (body : A → B → M B) (acc : B) : M B :=
  match l with
  | [] => ret acc
  | a :: l' => acc' <- body a acc ;; for_each l' body acc'
  end.

(** Lines 78-94: one [CycleData] per cycle group, numbered from
    [cycle_index] on. *)
Fixpoint build_cycles (cycle_index : nat) (groups : list (Z * list Row))
  : option (list CycleData) :=
  match groups with
  | [] => Some []
  | (_, cycle_df) :: rest =>
      let I := map Current cycle_df in
      let t := map Test_Time cycle_df in
      let V := map Voltage cycle_df in
      match calc_Q I t false, calc_Q I t true,
            build_cycles (S cycle_index) rest with
      | Some Qd, Some Qc, Some cycles =>
          Some (mkCycleData cycle_index V I t Qc Qd :: cycles)
      | _, _, _ => None
      end
  end.

(** Line 69: the normalised indices are written back to the column. *)
Definition set_Cycle_Index (r : Row) (c : Z) : Row :=
  mkRow (Battery_ID r) c (Test_Time r) (Current r) (Voltage r).

(** Lines 62-94: sort the rows by time, normalise the cycle index, group by
    it and build the cycles.  [None] stands for an out-of-range read in one
    of the two helpers. *)
Definition battery_cycles (battery_df : list Row) : option (list CycleData) :=
  let battery_df := sort_values battery_df in
  match organize_cycle_index (map Cycle_Index battery_df) with
  | None => None
  | Some normalised =>
      let processed_df := zip_with set_Cycle_Index battery_df normalised in
      build_cycles 0 (groupby Cycle_Index processed_df)
  end.

Definition out_of_range : exn := IndexError "index out of range".

(** Lines 49-151: the body of the loop over battery groups.  [acc] is
    [(process_batteries_num, skip_batteries_num)]; a [continue] returns it
    as it stands. *)
Definition process_battery (silent : bool) (group : Z * list Row)
    (acc : nat * nat) : M (nat * nat) :=
  let '(battery_id, battery_df) := group in
  let cell_name := "Battery_" +:+ str_Z battery_id in
  whether_to_skip <- check ("CSV_" +:+ cell_name) ;;
  if whether_to_skip then ret (fst acc, S (snd acc))
  else
    when (negb silent) (print ("Processing battery " +:+ cell_name)) ;;;
    cycles <- of_option (battery_cycles battery_df) out_of_range ;;
    let Qd := peaks cycles in
    if (length Qd =? 0)%nat then
      print ("No valid cycles found for battery " +:+ cell_name) ;;;
      ret acc
    else
      Qd_med <- of_result (smooth Qd) ;;
      match clean_loop cycles (should_keep Qd Qd_med) Qd with
      | None => raise out_of_range
      | Some (clean_cycles, _) =>
          if (length clean_cycles =? 0)%nat then
            print ("No clean cycles found for battery " +:+ cell_name) ;;;
            ret acc
          else
            initial_capacities <- of_option
              (mapM (λ c, py_max (discharge_capacity_in_Ah c))
                    (take 5 clean_cycles))
              (ValueError "max() arg is an empty sequence") ;;
            let C := match initial_capacities with
                     | [] => 1
                     | _ => mean initial_capacities
                     end in
            let battery :=
              mkBatteryData ("CSV_" +:+ cell_name) "unknown" "unknown"
                            "unknown" clean_cycles C (42 # 10) (27 # 10)
                            [0; 1] in
            dump battery ;;;
            when (negb silent)
                 (emit (TqdmWrite ("File: " +:+ cell_id battery
                                   +:+ " dumped to pkl file"))) ;;;
            ret (S (fst acc), snd acc)
      end.

(** Lines 37-151: the body of the loop over files. *)
Definition process_file (silent : bool) (f : csv_file) (acc : nat * nat)
  : M (nat * nat) :=
  when (negb silent) (print ("Processing " +:+ name f)) ;;;
  match read_csv f with
  | Raise e =>
      print ("Error reading " +:+ path f +:+ ": " +:+ str_exn e) ;;;
      ret acc
  | Ok df =>
      for_each (groupby Battery_ID df) (process_battery silent) acc
  end.

(** Lines 21-153; [raw_files] is what [glob] found. *)
Definition process (silent : bool) (raw_files : list csv_file)
  : M (nat * nat) :=
  match raw_files with
  | [] =>
      print "No CSV files found in the directory" ;;;
      ret (0%nat, 0%nat)
  | _ =>
      when (negb silent)
           (print ("Found " +:+ str_nat (length raw_files)
                   +:+ " CSV files to process")) ;;;
      for_each raw_files (process_file silent) (0%nat, 0%nat)
  end.

(** The store after the dumps recorded in a trace. *)
Definition replay (tr : list event) (st : St) : St :=
  fold_left (λ st ev, match ev with
                      | Dump b => dump_single_file b st
                      | _ => st
                      end) tr st.

(** [effects m acc]: running [m] only appends to the trace, the store
    changes by the dumps that were appended, and when [m] returns counters
    they are [acc] plus the numbers of dumps and of positive skip checks. *)
Definition effects (m : M (nat * nat)) (acc : nat * nat) : Prop :=
  ∀ w, ∃ new,
    snd (m w) = mkWorld (replay new (store w)) (trace w ++ new)
    ∧ ∀ acc', fst (m w) = Ok acc' →
        fst acc' = (fst acc + count_dumps new)%nat
        ∧ snd acc' = (snd acc + count_skips new)%nat.

(** [oblivious m]: what [m] returns and what it leaves in the store do not
    depend on the trace it starts from. *)
Definition oblivious {A : Type} (m : M A) : Prop :=
  ∀ w1 w2, store w1 = store w2 →
    fst (m w1) = fst (m w2) ∧ store (snd (m w1)) = store (snd (m w2)).

End Driver.

Arguments mkWorld {St} _ _.
Arguments store {St} _.
Arguments trace {St} _.
Arguments ret {St A} _ _.
Arguments bind {St A B} _ _ _.
Arguments raise {St A} _ _.
Arguments emit {St} _ _.
Arguments print {St} _ _.
Arguments when {St} _ _ _.
Arguments check {St} _ _ _.
Arguments dump {St} _ _ _.
Arguments of_result {St A} _ _.
Arguments of_option {St A} _ _ _.
Arguments for_each {St A B} _ _ _ _.
Arguments process_battery {St} _ _ _ _ _ _.
Arguments process_file {St} _ _ _ _ _ _.
Arguments process {St} _ _ _ _ _.
Arguments replay {St} _ _ _.
Arguments effects {St} _ _ _.
Arguments oblivious {St A} _.

(** ** Auxiliary notions used in the statements *)

(** What is known before iteration [a] of the loop of
    [organize_cycle_index]: positions from [a] on still hold the raw values,
    [prev_value] is the raw value at [a - 1] and [current_cycle] is what was
    written there. *)
Definition organize_inv (raw : list Z) (a : nat) (st : norm_state) : Prop :=
  length (cycle_index st) = length raw
  ∧ (∀ j, (a ≤ j)%nat → cycle_index st !! j = raw !! j)
  ∧ raw !! (a - 1)%nat = Some (prev_value st)
  ∧ cycle_index st !! (a - 1)%nat = Some (current_cycle st).

(** The recurrence that the normalised sequence [out] satisfies. *)
Definition normalised_from (raw out : list Z) (a : nat) : Prop :=
  ∀ i x y p, (a ≤ i)%nat →
    raw !! i = Some x → raw !! (i - 1)%nat = Some y →
    out !! (i - 1)%nat = Some p →
    out !! i = Some (if bool_decide (x ≠ y) then (p + 1)%Z else p).

(** The value that iteration [i] writes, from the previous total [p]. *)
Definition next_Q (is_charge : bool) (Ii ti tp p : Q) : Q :=
  if is_charge && Qlt_bool 0 Ii then p + Ii * (ti - tp) / 3600
  else if negb is_charge && Qlt_bool Ii 0 then p - Ii * (ti - tp) / 3600
  else p.

Definition integrated_from (I t : list Q) (is_charge : bool) (Qs : list Q)
    (a : nat) : Prop :=
  ∀ i Ii ti tp p, (a ≤ i)%nat →
    I !! i = Some Ii → t !! i = Some ti → t !! (i - 1)%nat = Some tp →
    Qs !! (i - 1)%nat = Some p →
    Qs !! i = Some (next_Q is_charge Ii ti tp p).

(** The test of line 119 at position [i]. *)
Definition keeps (keep : list bool) (Qd : list Q) (i : nat) : bool :=
  match keep !! i, Qd !! i with
  | Some k, Some q => k && Qlt_bool (1 # 10) q
  | _, _ => false
  end.

(** The positions among [a, a + m) that pass the test, in increasing order. *)
Definition kept_positions (keep : list bool) (Qd : list Q) (a m : nat)
  : list nat :=
  filter (λ i, keeps keep Qd i = true) (seq a m).

(** The cycles at the positions [kept], numbered from [index + 1] on. *)
Fixpoint renumber (cycles : list CycleData) (index : nat) (kept : list nat)
  : list CycleData :=
  match kept with
  | [] => []
  | i :: rest =>
      match cycles !! i with
      | Some c => set_cycle_number c (S index) :: renumber cycles (S index) rest
      | None => renumber cycles index rest
      end
  end.

(** The two ways in which a battery is dropped without a record: no cycle
    at all (line 104) or no cycle left by the filter (line 124). *)
Definition dropped (cycles : list CycleData) : Prop :=
  cycles = []
  ∨ ∃ Qd_med K,
      smooth (peaks cycles) = Ok Qd_med
      ∧ clean_loop cycles (should_keep (peaks cycles) Qd_med) (peaks cycles)
        = Some ([], K).

(** ** A concrete output directory and sample inputs *)

(** The output directory as the list of keys that have a file: the skip check
    looks the key up, the dump adds it. *)
Definition directory : Type := list string.

Definition pkl_exists (key : string) (d : directory) : bool :=
  existsb (String.eqb key) d.

Definition write_pkl (battery : BatteryData) (d : directory) : directory :=
  cell_id battery :: d.

(** Two rows of cycle [k] of battery [battery_id], one hour apart, with a
    constant discharge current of [p] amperes: the peak discharge capacity of
    the cycle is [p]. *)
Definition cycle_rows (battery_id k : Z) (p : Q) : list Row :=
  [ mkRow battery_id k (7200 * inject_Z k) (- p) (37 # 10);
    mkRow battery_id k (7200 * inject_Z k + 3600) (- p) (37 # 10) ].

Definition two_cycle_rows : list Row :=
  cycle_rows 1 1 2 ++ cycle_rows 1 2 2.

Definition constant_rows : list Row :=
  cycle_rows 4 1 2 ++ cycle_rows 4 2 2 ++ cycle_rows 4 3 2.

Definition fading_rows (battery_id : Z) : list Row :=
  cycle_rows battery_id 1 2 ++ cycle_rows battery_id 2 (19 # 10)
  ++ cycle_rows battery_id 3 (18 # 10) ++ cycle_rows battery_id 4 (1 # 20)
  ++ cycle_rows battery_id 5 (17 # 10) ++ cycle_rows battery_id 6 (16 # 10)
  ++ cycle_rows battery_id 7 (15 # 10).

Definition two_cycle_file : csv_file :=
  mkCsvFile "data/short.csv" "short.csv" (Ok two_cycle_rows).

Definition fading_file : csv_file :=
  mkCsvFile "data/fading.csv" "fading.csv" (Ok (fading_rows 2)).

Definition mixed_file : csv_file :=
  mkCsvFile "data/mixed.csv" "mixed.csv"
            (Ok (fading_rows 3 ++ constant_rows ++ fading_rows 2)).

Definition unreadable_file : csv_file :=
  mkCsvFile "data/broken.csv" "broken.csv"
            (Raise (ReadError "No columns to parse from file")).

Definition constant_cycles : list CycleData :=
  Eval vm_compute in default [] (battery_cycles constant_rows).

Definition fading_cycles : list CycleData :=
  Eval vm_compute in default [] (battery_cycles (fading_rows 2)).

Definition smoothed (cycles : list CycleData) : list Q :=
  match smooth (peaks cycles) with Ok Qd_med => Qd_med | Raise _ => [] end.

(** Seven cycles whose peaks are 0.1 or slightly above it. *)
Definition floor_cycles : list CycleData :=
  map (λ p, mkCycleData 0 [] [] [] [] [0; p])
      [1 # 10; 100001 # 1000000; 12 # 100; 1 # 10; 100001 # 1000000;
       11 # 100; 1 # 10].

(** ** Further notions used in the statements *)

(** The pure scan that [organize_cycle_index] performs after the first
    element: [current] is the running cycle, [prev] the previous raw value. *)
Fixpoint normalise (current prev : Z) (l : list Z) : list Z :=
  match l with
  | [] => []
  | y :: rest =>
      let c := if bool_decide (y ≠ prev) then (current + 1)%Z else current in
      c :: normalise c y rest
  end.

(** The number of positions of [l] whose value differs from the value before
    it, [prev] being the value before the first one. *)
Fixpoint changes (prev : Z) (l : list Z) : nat :=
  match l with
  | [] => 0%nat
  | y :: rest => ((if bool_decide (y ≠ prev) then 1 else 0) + changes y rest)%nat
  end.

(** A sequence of numbers that never decreases from one element to the
    next. *)
Definition non_decreasing (l : list Q) : Prop :=
  ∀ i a b, l !! i = Some a → l !! S i = Some b → a <= b.

(** The five sample sequences of a cycle have the same, non-zero length. *)
Definition aligned (c : CycleData) : Prop :=
  (0 < length (time_in_s c))%nat
  ∧ length (voltage_in_V c) = length (time_in_s c)
  ∧ length (current_in_A c) = length (time_in_s c)
  ∧ length (charge_capacity_in_Ah c) = length (time_in_s c)
  ∧ length (discharge_capacity_in_Ah c) = length (time_in_s c).

(** What [build_cycles] puts into the cycle of each group. *)
Definition built_from (kg : Z * list Row) (c : CycleData) : Prop :=
  voltage_in_V c = map Voltage (snd kg)
  ∧ current_in_A c = map Current (snd kg)
  ∧ time_in_s c = map Test_Time (snd kg)
  ∧ calc_Q (current_in_A c) (time_in_s c) true
    = Some (charge_capacity_in_Ah c)
  ∧ calc_Q (current_in_A c) (time_in_s c) false
    = Some (discharge_capacity_in_Ah c).

(** The part of the loop body of [process] (lines 62-145) that does not
    touch the outside, for the rows of one battery: an exception, the line
    that reports a battery without cycles, or the record that is dumped. *)
Definition battery_result (battery_id : Z) (battery_df : list Row)
  : result (string + BatteryData) :=
  let cell_name := "Battery_" +:+ str_Z battery_id in
  match battery_cycles battery_df with
  | None => Raise out_of_range
  | Some cycles =>
      let Qd := peaks cycles in
      if (length Qd =? 0)%nat then
        Ok (inl ("No valid cycles found for battery " +:+ cell_name))
      else
        match smooth Qd with
        | Raise e => Raise e
        | Ok Qd_med =>
            match clean_loop cycles (should_keep Qd Qd_med) Qd with
            | None => Raise out_of_range
            | Some (clean_cycles, _) =>
                if (length clean_cycles =? 0)%nat then
                  Ok (inl ("No clean cycles found for battery " +:+ cell_name))
                else
                  match mapM (λ c, py_max (discharge_capacity_in_Ah c))
                             (take 5 clean_cycles) with
                  | None => Raise (ValueError "max() arg is an empty sequence")
                  | Some initial_capacities =>
                      let C := match initial_capacities with
                               | [] => 1
                               | _ => mean initial_capacities
                               end in
                      Ok (inr (mkBatteryData ("CSV_" +:+ cell_name) "unknown"
                                 "unknown" "unknown" clean_cycles C (42 # 10)
                                 (27 # 10) [0; 1]))
                  end
            end
        end
  end.

(** What every record that is handed to the dump looks like. *)
Definition well_formed_record (b : BatteryData) : Prop :=
  (∃ battery_id, cell_id b = cell_key battery_id)
  ∧ cycle_data b ≠ []
  ∧ map cycle_number (cycle_data b) = seq 1 (length (cycle_data b))
  ∧ Forall (λ c, aligned c ∧ 1 # 10 < peak c) (cycle_data b)
  ∧ nominal_capacity_in_Ah b = mean (map peak (take 5 (cycle_data b)))
  ∧ 1 # 10 < nominal_capacity_in_Ah b
  ∧ max_voltage_limit_in_V b = 42 # 10
  ∧ min_voltage_limit_in_V b = 27 # 10
  ∧ SOC_interval b = [0; 1].

Definition dumps_well_formed (ev : event) : Prop :=
  match ev with Dump b => well_formed_record b | _ => True end.

(** [appends P m]: running [m] only appends events that satisfy [P]. *)
Definition appends {St A : Type} (P : event → Prop) (m : M St A) : Prop :=
  ∀ w, ∃ new, trace (snd (m w)) = trace w ++ new ∧ Forall P new.

(** The events of a trace other than console output: the skip checks and the
    dumps. *)
Definition is_action (ev : event) : bool :=
  match ev with Print _ | TqdmWrite _ => false | _ => true end.

Definition actions (tr : list event) : list event := List.filter is_action tr.

(** [agree m1 m2]: from worlds with the same store and the same actions so
    far, [m1] and [m2] return the same, leave the same store and have
    performed the same actions. *)
Definition agree {St A : Type} (m1 m2 : M St A) : Prop :=
  ∀ w1 w2, store w1 = store w2 → actions (trace w1) = actions (trace w2) →
    fst (m1 w1) = fst (m2 w2)
    ∧ store (snd (m1 w1)) = store (snd (m2 w2))
    ∧ actions (trace (snd (m1 w1))) = actions (trace (snd (m2 w2))).

(** The number of battery groups of a file, 0 for a file that cannot be
    read, and of a list of files. *)
Definition groups_of (f : csv_file) : nat :=
  match read_csv f with
  | Ok df => length (groupby Battery_ID df)
  | Raise _ => 0%nat
  end.

Definition total_groups (raw_files : list csv_file) : nat :=
  sum_list_with groups_of raw_files.

(** The keys of the records dumped in a trace, in order. *)
Definition dumped_keys (tr : list event) : list string :=
  omap (λ ev, match ev with Dump b => Some (cell_id b) | _ => None end) tr.

(** [extends check st st']: every key that the skip check finds in [st] it
    also finds in [st']. *)
Definition extends {St : Type} (check : string → St → bool) (st st' : St)
  : Prop :=
  ∀ k, check k st = true → check k st' = true.

(** [fresh_dumps check dump m]: the store after [m] is the store before it
    after the dumps that [m] appended to the trace; no key is dumped twice
    and no dumped key was found by the skip check before [m]. *)
Definition fresh_dumps {St A : Type} (check : string → St → bool)
    (dump : BatteryData → St → St) (m : M St A) : Prop :=
  ∀ w, ∃ new,
    snd (m w) = mkWorld (replay dump new (store w)) (trace w ++ new)
    ∧ NoDup (dumped_keys new)
    ∧ ∀ k, k ∈ dumped_keys new → check k (store w) = false.

(** [rerunnable check body]: when a step of a first run has returned, the
    same step of a later run, from a store [stF] that extends the store of
    the first run, returns too, leaves [stF] as it is, counts nothing as
    processed and counts as skipped at least what the first run counted. *)
Definition rerunnable {St A : Type} (check : string → St → bool)
    (body : A → nat * nat → M St (nat * nat)) : Prop :=
  ∀ a acc wa acc' wa' stF accb wb,
    body a acc wa = (Ok acc', wa') →
    extends check (store wa') stF → store wb = stF →
    ∃ accb' wb',
      body a accb wb = (Ok accb', wb')
      ∧ store wb' = stF ∧ fst accb' = fst accb
      ∧ (fst acc' + snd acc' + snd accb ≤ fst acc + snd acc + snd accb')%nat.

(** ** [process_second_life_phase.py] *)

Definition returns {A : Type} (r : result A) : bool :=
  match r with Ok _ => true | Raise _ => false end.

(** The newline that starts some of the lines, ["=" * 60], and [sorted] on
    file names. *)
Definition nl : string := String (Ascii.ascii_of_nat 10) "".

Fixpoint string_times (s : string) (n : nat) : string :=
  match n with
  | O => ""
  | S n' => s +:+ string_times s n'
  end.

Fixpoint insert_name (x : string) (l : list string) : list string :=
  match l with
  | [] => [x]
  | y :: rest => if String.leb x y then x :: l else y :: insert_name x rest
  end.

Definition sorted_names (l : list string) : list string :=
  foldr insert_name [] l.

Definition data_dir : string :=
  "/Users/kevinwang/Downloads/14859405/Second_life_phase".

Definition output_dir : string := "./processed_second_life_phase".

Section Script.

(** Besides the two collaborators of the driver, the script creates the
    output directory and lists the [*.pkl] files in it; both are assumed to
    return.  [data_dir_exists] is the answer of [Path(data_dir).exists()]
    and [csv_files] is what the two [glob] calls on the data directory find.
    The traceback, which goes to the error stream, is not part of the
    trace. *)
Variable St : Type.
Variable check_processed_file : string → St → bool.
Variable dump_single_file : BatteryData → St → St.
Variable mkdir : St → St.
Variable glob_pkl : St → list string.

Notation "x <- m ;; k" := (bind m (λ x, k))
  (at level 100, m at next level, right associativity).
Notation "m ;;; k" := (bind m (λ _, k))
  (at level 100, right associativity).

(** [try: body except Exception as e: handler]. *)
Definition try_except {A : Type} (body : M St A) (handler : exn → M St A)
  : M St A :=
  λ w, match body w with
       | (Ok a, w') => (Ok a, w')
       | (Raise e, w') => handler e w'
       end.

Definition make_output_dir : M St unit :=
  λ w, (Ok tt, mkWorld (mkdir (store w)) (trace w)).

Definition list_output_dir : M St (list string) :=
  λ w, (Ok (glob_pkl (store w)), w).

(** Lines 61-62: the numbered names, [i] being the index of [enumerate]. *)
Fixpoint print_names (i : nat) (names : list string) : M St unit :=
  match names with
  | [] => ret tt
  | file :: rest =>
      print ("   " +:+ str_nat (S i) +:+ ". " +:+ file) ;;;
      print_names (S i) rest
  end.

(** Lines 15-72. *)
Definition process_second_life_phase (data_dir_exists : bool)
    (csv_files : list csv_file) : M St bool :=
  print "Processing Second Life Phase Battery Data" ;;;
  print (string_times "=" 60) ;;;
  if negb data_dir_exists then
    print ("❌ Error: Directory " +:+ data_dir +:+ " does not exist!") ;;;
    ret false
  else
    make_output_dir ;;;
    print ("📁 Data directory: " +:+ data_dir) ;;;
    print ("📁 Output directory: " +:+ output_dir) ;;;
    print ("📄 Found " +:+ str_nat (length csv_files)
           +:+ " CSV files to process") ;;;
    try_except
      (print (nl +:+ "🔄 Starting preprocessing...") ;;;
       counts <- process check_processed_file dump_single_file false
                   csv_files ;;
       print (nl +:+ "✅ Processing completed!") ;;;
       print ("📊 Batteries processed: " +:+ str_nat (fst counts)) ;;;
       print ("⏭️  Batteries skipped: " +:+ str_nat (snd counts)) ;;;
       print ("📁 Output saved to: " +:+ output_dir) ;;;
       output_files <- list_output_dir ;;
       print (nl +:+ "📋 Generated " +:+ str_nat (length output_files)
              +:+ " processed files:") ;;;
       print_names 0 (take 10 (sorted_names output_files)) ;;;
       when (10 <? length output_files)%nat
            (print ("   ... and " +:+ str_nat (length output_files - 10)
                    +:+ " more files")) ;;;
       ret true)
      (λ e,
         print ("❌ Error during processing: " +:+ str_exn e) ;;;
         ret false).

(** Lines 74-80: the exit status of the script. *)
Definition main (data_dir_exists : bool) (csv_files : list csv_file)
  : M St nat :=
  success <- process_second_life_phase data_dir_exists csv_files ;;
  if success then
    print (nl +:+ "🎉 Second life phase data preprocessing completed successfully!") ;;;
    ret 0%nat
  else
    print (nl +:+ "💥 Second life phase data preprocessing failed!") ;;;
    ret 1%nat.

End Script.

Arguments try_except {St A} _ _ _.
Arguments make_output_dir {St} _ _.
Arguments list_output_dir {St} _ _.
Arguments print_names {St} _ _ _.
Arguments process_second_life_phase {St} _ _ _ _ _ _ _.
Arguments main {St} _ _ _ _ _ _ _.

(** * Properties *)

(** ** Loops over arrays *)

Lemma range1_S (n : nat) : range1 (S n) = seq 1 n.
Proof. unfold range1. by rewrite Nat.sub_succ, Nat.sub_0_r. Qed.

(** ** Cycle-index normalisation *)

Lemma organize_loop (raw : list Z) (m a : nat) (st : norm_state) :
  (1 ≤ a)%nat → (a + m)%nat = length raw → organize_inv raw a st →
  ∃ st', foldl_opt organize_step st (seq a m) = Some st'
    ∧ length (cycle_index st') = length raw
    ∧ (∀ j, (j < a)%nat → cycle_index st' !! j = cycle_index st !! j)
    ∧ normalised_from raw (cycle_index st') a.
Proof.
  revert a st. induction m as [|m IH]; intros a st Ha Hlen (Hl & Hraw & Hprev & Hcur).
  - exists st. simpl. repeat split; auto.
    intros i x y p Hi Hx. apply lookup_lt_Some in Hx. lia.
  - simpl. unfold organize_step at 1.
    destruct (raw !! a) as [x|] eqn:Hx;
      [| apply lookup_ge_None in Hx; lia].
    rewrite (Hraw a) by lia. rewrite Hx.
    set (st1 := if bool_decide (x ≠ prev_value st)
                then NormState (cycle_index st) (current_cycle st + 1)%Z x
                else st).
    assert (Hci : cycle_index st1 = cycle_index st)
      by (unfold st1; case_bool_decide; reflexivity).
    assert (Hpv : prev_value st1 = x).
    { unfold st1. case_bool_decide as Hd; simpl; [reflexivity|].
      destruct (decide (x = prev_value st)); [congruence | contradiction]. }
    assert (Hcc : current_cycle st1 =
                  if bool_decide (x ≠ prev_value st)
                  then (current_cycle st + 1)%Z else current_cycle st)
      by (unfold st1; case_bool_decide; reflexivity).
    set (st2 := NormState (<[a:=current_cycle st1]> (cycle_index st1))
                          (current_cycle st1) (prev_value st1)).
    destruct (IH (S a) st2) as (st' & Hrun & Hl' & Hpre & Hrec).
    + lia.
    + lia.
    + unfold organize_inv, st2; simpl. rewrite Hci, Hpv, Nat.sub_0_r.
      repeat split.
      * by rewrite length_insert.
      * intros j Hj. rewrite list_lookup_insert_ne by lia. apply Hraw. lia.
      * exact Hx.
      * apply list_lookup_insert_eq. lia.
    + exists st'. split; [exact Hrun|]. split; [exact Hl'|]. split.
      * intros j Hj. rewrite Hpre by lia. unfold st2; simpl.
        rewrite Hci. apply list_lookup_insert_ne. lia.
      * intros i x' y p Hi Hx' Hy Hp.
        destruct (decide (i = a)) as [->|Hne].
        -- rewrite Hpre by lia. rewrite Hpre in Hp by lia.
           unfold st2 in *; simpl in *. rewrite Hci in *.
           rewrite list_lookup_insert_ne in Hp by lia.
           rewrite list_lookup_insert_eq by lia.
           assert (x' = x) by congruence. assert (y = prev_value st) by congruence.
           assert (p = current_cycle st) by congruence. subst x' y p.
           by rewrite Hcc.
        -- apply (Hrec i x' y p); auto. lia.
Qed.

(** The function returns on every non-empty array, and its result obeys the
    recurrence from position 1 on. *)
Lemma organize_cycle_index_rec (raw : list Z) :
  raw ≠ [] →
  ∃ out, organize_cycle_index raw = Some out
    ∧ length out = length raw
    ∧ out !! 0%nat = raw !! 0%nat
    ∧ normalised_from raw out 1.
Proof.
  destruct raw as [|first rest]; [congruence|]. intros _.
  unfold organize_cycle_index. simpl (_ !! _).
  change (length (first :: rest)) with (S (length rest)). rewrite range1_S.
  destruct (organize_loop (first :: rest) (length rest) 1
              (NormState (first :: rest) first first))
    as (st' & Hrun & Hl & Hpre & Hrec).
  - lia.
  - reflexivity.
  - unfold organize_inv; simpl. repeat split; auto.
  - rewrite Hrun. exists (cycle_index st'). repeat split; auto.
Qed.





(** ** Capacity integration *)

Lemma Qlt_bool_iff (x y : Q) : Qlt_bool x y = true ↔ x < y.
Proof.
  unfold Qlt_bool. rewrite negb_true_iff. split.
  - intros H. apply Qnot_le_lt. intros Hle.
    apply Qle_bool_iff in Hle. congruence.
  - intros H. destruct (Qle_bool y x) eqn:E; [|reflexivity].
    apply Qle_bool_iff in E. exfalso. by apply (Qlt_not_le x y).
Qed.

Lemma Qlt_bool_false_iff (x y : Q) : Qlt_bool x y = false ↔ y <= x.
Proof.
  unfold Qlt_bool. rewrite negb_false_iff. apply Qle_bool_iff.
Qed.

Lemma calc_Q_step_eq (I t : list Q) (is_charge : bool) (Qs : list Q) (i : nat)
    (Ii ti tp p : Q) :
  I !! i = Some Ii → t !! i = Some ti → t !! (i - 1)%nat = Some tp →
  Qs !! (i - 1)%nat = Some p →
  calc_Q_step I t is_charge Qs i
  = Some (<[ i := next_Q is_charge Ii ti tp p ]> Qs).
Proof.
  intros HI Ht Htp Hp. unfold calc_Q_step, next_Q.
  rewrite HI, Hp, Ht, Htp.
  destruct (is_charge && Qlt_bool 0 Ii); [reflexivity|].
  destruct (negb is_charge && Qlt_bool Ii 0); reflexivity.
Qed.

Lemma calc_Q_loop (I t : list Q) (is_charge : bool) (m a : nat) (Qs : list Q) :
  length t = length I → length Qs = length I →
  (1 ≤ a)%nat → (a + m)%nat = length I →
  ∃ Qs', foldl_opt (calc_Q_step I t is_charge) Qs (seq a m) = Some Qs'
    ∧ length Qs' = length I
    ∧ (∀ j, (j < a)%nat → Qs' !! j = Qs !! j)
    ∧ integrated_from I t is_charge Qs' a.
Proof.
  intros Ht. revert a Qs. induction m as [|m IH]; intros a Qs HQ Ha Hlen.
  - exists Qs. simpl. repeat split; auto.
    intros i Ii ti tp p Hi HI. apply lookup_lt_Some in HI. lia.
  - simpl.
    destruct (lookup_lt_is_Some_2 I a) as [Ii HI]; [lia|].
    destruct (lookup_lt_is_Some_2 t a) as [ti Hti]; [lia|].
    destruct (lookup_lt_is_Some_2 t (a - 1)) as [tp Htp]; [lia|].
    destruct (lookup_lt_is_Some_2 Qs (a - 1)) as [p Hp]; [lia|].
    rewrite (calc_Q_step_eq I t is_charge Qs a Ii ti tp p) by assumption.
    destruct (IH (S a) (<[a:=next_Q is_charge Ii ti tp p]> Qs))
      as (Qs' & Hrun & Hl' & Hpre & Hrec).
    + by rewrite length_insert.
    + lia.
    + lia.
    + exists Qs'. split; [exact Hrun|]. split; [exact Hl'|]. split.
      * intros j Hj. rewrite Hpre by lia. apply list_lookup_insert_ne. lia.
      * intros i Ii' ti' tp' p' Hi HI' Hti' Htp' Hp'.
        destruct (decide (i = a)) as [->|Hne].
        -- rewrite Hpre by lia. rewrite Hpre in Hp' by lia.
           rewrite list_lookup_insert_ne in Hp' by lia.
           rewrite list_lookup_insert_eq by lia.
           congruence.
        -- apply Hrec; auto. lia.
Qed.

(** On inputs of equal length [calc_Q] returns, and its result is the running
    total described by [next_Q]. *)
Lemma calc_Q_rec (I t : list Q) (is_charge : bool) :
  length I = length t →
  ∃ Qs, calc_Q I t is_charge = Some Qs
    ∧ length Qs = length I
    ∧ (∀ q, Qs !! 0%nat = Some q → q = 0)
    ∧ integrated_from I t is_charge Qs 1.
Proof.
  intros Hlen. unfold calc_Q. destruct I as [|I0 I'].
  - exists []. repeat split; auto.
    + intros q Hq. discriminate.
    + intros i Ii ti tp p _ HI. discriminate.
  - change (length (I0 :: I')) with (S (length I')). rewrite range1_S.
    destruct (calc_Q_loop (I0 :: I') t is_charge (length I') 1
                (replicate (S (length I')) 0))
      as (Qs & Hrun & Hl & Hpre & Hrec).
    + by rewrite <- Hlen.
    + by rewrite length_replicate.
    + lia.
    + reflexivity.
    + exists Qs. split; [exact Hrun|]. split; [exact Hl|]. split; [|exact Hrec].
      intros q Hq. rewrite Hpre in Hq by lia. simpl in Hq. congruence.
Qed.



(** C8: under the discharge flag, for inputs of equal length with
    non-decreasing times and no positive current, the capacity sequence is
    non-negative and every element is at least its predecessor. *)
Theorem calc_Q_discharge_monotone (I t : list Q) :
  length I = length t →
  (∀ i a b, t !! i = Some a → t !! S i = Some b → a <= b) →
  (∀ i x, I !! i = Some x → x <= 0) →
  ∃ Qd, calc_Q I t false = Some Qd
    ∧ (∀ i p q, Qd !! i = Some p → Qd !! S i = Some q → p <= q)
    ∧ (∀ i q, Qd !! i = Some q → 0 <= q).
Proof.
  intros Hlen Htime Hcur. destruct (calc_Q_rec I t false Hlen)
    as (Qd & Hrun & Hl & H0 & Hrec).
  exists Qd. split; [exact Hrun|].
  assert (Hmono : ∀ i p q, Qd !! i = Some p → Qd !! S i = Some q → p <= q).
  { intros i p q Hp Hq.
    assert (Hi : (S i < length I)%nat)
      by (rewrite <- Hl; by apply lookup_lt_Some in Hq).
    destruct (lookup_lt_is_Some_2 I (S i)) as [Ii HI]; [lia|].
    destruct (lookup_lt_is_Some_2 t (S i)) as [ti Hti]; [lia|].
    destruct (lookup_lt_is_Some_2 t i) as [tp Htp]; [lia|].
    pose proof (Hrec (S i) Ii ti tp p) as Hstep.
    simpl in Hstep. rewrite Nat.sub_0_r in Hstep.
    specialize (Hstep ltac:(lia) HI Hti Htp Hp).
    assert (q = next_Q false Ii ti tp p) as -> by congruence.
    unfold next_Q. simpl. destruct (Qlt_bool Ii 0) eqn:E; [|apply Qle_refl].
    apply Qlt_bool_iff in E. pose proof (Htime i tp ti Htp Hti) as Hdt.
    assert (0 <= (- Ii) * (ti - tp) / 3600) as Hinc.
    { apply Qle_shift_div_l; [reflexivity|]. rewrite Qmult_0_l.
      apply Qmult_le_0_compat; lra. }
    assert (p - Ii * (ti - tp) / 3600 == p + (- Ii) * (ti - tp) / 3600)
      as -> by (unfold Qdiv; ring).
    lra. }
  split; [exact Hmono|].
  intros i. induction i as [|i IH]; intros q Hq.
  - rewrite (H0 q Hq). apply Qle_refl.
  - destruct (lookup_lt_is_Some_2 Qd i) as [p Hp].
    { apply lookup_lt_Some in Hq. lia. }
    apply Qle_trans with p; [by apply IH | by apply (Hmono i)].
Qed.

Lemma calc_Q_discharge_monotone_witness :
  ∃ Qd, calc_Q [0; -2; -1] [0; 1800; 3600] false = Some Qd
    ∧ (∀ i p q, Qd !! i = Some p → Qd !! S i = Some q → p <= q).
Proof.
  destruct (calc_Q_discharge_monotone [0; -2; -1] [0; 1800; 3600])
    as (Qd & H1 & H2 & _).
  - reflexivity.
  - intros [|[|[|i]]] a b Ha Hb; simpl in *; try discriminate;
      injection Ha as <-; injection Hb as <-; discriminate.
  - intros [|[|[|i]]] x Hx; simpl in *; try discriminate;
      injection Hx as <-; discriminate.
  - exists Qd. split; [exact H1 | exact H2].
Defined.

(** ** The outlier filter *)

Lemma clean_loop_from (cycles : list CycleData) (keep : list bool)
    (Qd : list Q) (m a : nat) (acc : list CycleData) (index : nat) :
  length keep = length cycles → length Qd = length cycles →
  (a + m)%nat = length cycles →
  foldl_opt (clean_step cycles keep Qd) (acc, index) (seq a m)
  = Some (acc ++ renumber cycles index (kept_positions keep Qd a m),
          (index + length (kept_positions keep Qd a m))%nat).
Proof.
  intros Hk HQ. revert a acc index.
  induction m as [|m IH]; intros a acc index Hlen.
  - simpl. by rewrite app_nil_r, Nat.add_0_r.
  - simpl.
    destruct (lookup_lt_is_Some_2 keep a) as [k Hka]; [lia|].
    destruct (lookup_lt_is_Some_2 Qd a) as [q Hqa]; [lia|].
    destruct (lookup_lt_is_Some_2 cycles a) as [c Hca]; [lia|].
    unfold kept_positions. simpl. rewrite Hka, Hqa, Hca.
    assert (Hkeeps : keeps keep Qd a = (k && Qlt_bool (1 # 10) q))
      by (unfold keeps; by rewrite Hka, Hqa).
    destruct (k && Qlt_bool (1 # 10) q) eqn:E.
    + rewrite filter_cons_True by exact Hkeeps.
      rewrite IH by lia. simpl. rewrite Hca.
      rewrite <- app_assoc. simpl. do 2 f_equal.
      unfold kept_positions. lia.
    + rewrite filter_cons_False by (rewrite Hkeeps; discriminate).
      rewrite IH by lia. reflexivity.
Qed.

Lemma clean_loop_eq (cycles : list CycleData) (keep : list bool) (Qd : list Q) :
  length keep = length cycles → length Qd = length cycles →
  clean_loop cycles keep Qd
  = Some (renumber cycles 0 (kept_positions keep Qd 0 (length cycles)),
          length (kept_positions keep Qd 0 (length cycles))).
Proof.
  intros Hk HQ. unfold clean_loop.
  by rewrite (clean_loop_from cycles keep Qd (length cycles) 0 [] 0).
Qed.

Lemma elem_of_kept_positions (keep : list bool) (Qd : list Q) (a m i : nat) :
  i ∈ kept_positions keep Qd a m
  ↔ (a ≤ i < a + m)%nat ∧ keeps keep Qd i = true.
Proof.
  unfold kept_positions. rewrite list_elem_of_filter, elem_of_seq. tauto.
Qed.

Lemma kept_positions_sorted (keep : list bool) (Qd : list Q) (a m : nat) :
  StronglySorted lt (kept_positions keep Qd a m).
Proof.
  unfold kept_positions. revert a. induction m as [|m IH]; intros a.
  - constructor.
  - simpl. destruct (decide (keeps keep Qd a = true)) as [H|H].
    + rewrite filter_cons_True by exact H. constructor; [apply IH|].
      apply Forall_forall. intros i Hi.
      apply list_elem_of_filter in Hi as [_ Hi].
      apply elem_of_seq in Hi. lia.
    + rewrite filter_cons_False by exact H. apply IH.
Qed.

(** When every position of [kept] is a position of [cycles], the renumbered
    list has one cycle per position, numbered consecutively. *)
Lemma renumber_lookup (cycles : list CycleData) (kept : list nat) :
  (∀ i, i ∈ kept → (i < length cycles)%nat) →
  ∀ index,
    length (renumber cycles index kept) = length kept
    ∧ map cycle_number (renumber cycles index kept)
      = seq (S index) (length kept)
    ∧ ∀ j i, kept !! j = Some i →
        ∃ c, cycles !! i = Some c
          ∧ renumber cycles index kept !! j
            = Some (set_cycle_number c (S (index + j))).
Proof.
  induction kept as [|i0 kept IH]; intros Hin index.
  - simpl. repeat split; auto. intros j i Hj. discriminate.
  - destruct (lookup_lt_is_Some_2 cycles i0) as [c Hc].
    { apply Hin. left. }
    destruct (IH (λ i Hi, Hin i (list_elem_of_further _ _ _ Hi)) (S index))
      as (Hlen & Hnum & Hlook).
    simpl. rewrite Hc. simpl. rewrite Hlen, Hnum. repeat split; auto.
    intros [|j] i Hj; simpl in *.
    + injection Hj as <-. exists c. by rewrite Nat.add_0_r.
    + destruct (Hlook j i Hj) as (c' & Hc' & Hr).
      exists c'. split; [exact Hc'|]. rewrite Hr. do 3 f_equal. lia.
Qed.

Lemma length_medfilt (volume : list Q) (k : nat) (out : list Q) :
  medfilt volume k = Ok out → length out = length volume.
Proof.
  unfold medfilt. destruct (negb (k mod 2 =? 1)%nat); [discriminate|].
  intros [= <-]. by rewrite length_map, length_seq.
Qed.

Lemma length_deviations (Qd Qd_med : list Q) :
  length Qd_med = length Qd → length (deviations Qd Qd_med) = length Qd.
Proof. intros H. unfold deviations. rewrite length_zip_with. lia. Qed.

Lemma length_should_keep (Qd Qd_med : list Q) :
  length Qd_med = length Qd → length (should_keep Qd Qd_med) = length Qd.
Proof.
  intros H. unfold should_keep. by rewrite length_map, length_deviations.
Qed.

(** The mask and the floor, as propositions. *)
Lemma keeps_should_keep (Qd Qd_med : list Q) (i : nat) :
  keeps (should_keep Qd Qd_med) Qd i = true
  ↔ ∃ q m, Qd !! i = Some q ∧ Qd_med !! i = Some m
      ∧ Qabs (q - m) < 3 * ths Qd Qd_med ∧ 1 # 10 < q.
Proof.
  unfold keeps, should_keep, deviations.
  rewrite list_lookup_fmap, lookup_zip_with.
  destruct (Qd !! i) as [q|]; simpl.
  - destruct (Qd_med !! i) as [m|]; simpl.
    + rewrite andb_true_iff, !Qlt_bool_iff. split.
      * intros [H1 H2]. exists q, m. auto.
      * intros (q' & m' & [= <-] & [= <-] & H1 & H2). auto.
    + split; [discriminate|]. intros (q' & m' & _ & Hm & _). discriminate.
  - split; [discriminate|]. intros (q' & m' & Hq & _). discriminate.
Qed.

Lemma clean_loop_kept (cycles : list CycleData) (Qd_med : list Q) :
  smooth (peaks cycles) = Ok Qd_med →
  let Qd := peaks cycles in
  let kept := kept_positions (should_keep Qd Qd_med) Qd 0 (length cycles) in
  clean_loop cycles (should_keep Qd Qd_med) Qd
  = Some (renumber cycles 0 kept, length kept)
  ∧ length (renumber cycles 0 kept) = length kept
  ∧ map cycle_number (renumber cycles 0 kept) = seq 1 (length kept)
  ∧ ∀ j i, kept !! j = Some i →
      ∃ c, cycles !! i = Some c
        ∧ renumber cycles 0 kept !! j = Some (set_cycle_number c (S j)).
Proof.
  intros Hsmooth Qd kept.
  assert (Hlenp : length Qd = length cycles)
    by (unfold Qd, peaks; by rewrite length_map).
  assert (Hlenmed : length Qd_med = length Qd)
    by (by apply length_medfilt in Hsmooth).
  split.
  { apply clean_loop_eq; [|exact Hlenp].
    rewrite length_should_keep; congruence. }
  destruct (renumber_lookup cycles kept) with (index := 0%nat)
    as (H1 & H2 & H3).
  { intros i Hi. apply elem_of_kept_positions in Hi. lia. }
  repeat split; assumption.
Qed.

(** C1: with [ths] the median of the absolute differences between the peak
    sequence and its median-filtered version, the cycles that the filter
    keeps are those at the positions [i] where the absolute difference is
    below three times [ths] and the peak is above 0.1; a cycle whose peak
    equals 0.1 is not kept. *)
Theorem outlier_filter_keeps (cycles : list CycleData) (Qd_med : list Q) :
  smooth (peaks cycles) = Ok Qd_med →
  let Qd := peaks cycles in
  ths Qd Qd_med = median (zip_with (λ q m, Qabs (q - m)) Qd Qd_med)
  ∧ ∃ kept clean_cycles,
      clean_loop cycles (should_keep Qd Qd_med) Qd
      = Some (clean_cycles, length kept)
      ∧ StronglySorted lt kept
      ∧ length clean_cycles = length kept
      ∧ (∀ j i, kept !! j = Some i →
           ∃ c, cycles !! i = Some c
             ∧ clean_cycles !! j = Some (set_cycle_number c (S j)))
      ∧ (∀ i, i ∈ kept ↔
           ∃ q m, Qd !! i = Some q ∧ Qd_med !! i = Some m
             ∧ Qabs (q - m) < 3 * ths Qd Qd_med ∧ 1 # 10 < q)
      ∧ (∀ i q, Qd !! i = Some q → q == 1 # 10 → i ∉ kept).
Proof.
  intros Hsmooth Qd. split; [reflexivity|].
  destruct (clean_loop_kept cycles Qd_med Hsmooth) as (Hrun & Hlen & _ & Hlook).
  fold Qd in Hrun, Hlen, Hlook.
  set (kept := kept_positions (should_keep Qd Qd_med) Qd 0 (length cycles))
    in *.
  assert (Hiff : ∀ i, i ∈ kept ↔
            ∃ q m, Qd !! i = Some q ∧ Qd_med !! i = Some m
              ∧ Qabs (q - m) < 3 * ths Qd Qd_med ∧ 1 # 10 < q).
  { intros i. unfold kept. rewrite elem_of_kept_positions, keeps_should_keep.
    split; [tauto|]. intros (q & m & Hq & Hrest). split; [|eauto 6].
    apply lookup_lt_Some in Hq. unfold Qd, peaks in Hq.
    rewrite length_map in Hq. lia. }
  exists kept, (renumber cycles 0 kept).
  split; [exact Hrun|]. split; [apply kept_positions_sorted|].
  split; [exact Hlen|]. split; [exact Hlook|]. split; [exact Hiff|].
  intros i q Hq Heq Hin. apply Hiff in Hin as (q' & m & Hq' & _ & _ & Hfloor).
  assert (q' = q) as -> by congruence. rewrite Heq in Hfloor.
  by apply (Qlt_irrefl (1 # 10)).
Qed.

(** C2, as the code has it: the kernel size is handed to the median filter
    as computed, so for two or four cycles it is even and the median filter
    raises instead of smoothing. *)
Theorem smooth_even_window (Qd : list Q) :
  length Qd = 2%nat ∨ length Qd = 4%nat →
  kernel_size (length Qd) = length Qd
  ∧ smooth Qd
    = Raise (ValueError "Each element of kernel_size should be odd.").
Proof.
  intros [H|H]; unfold smooth; rewrite H; split; reflexivity.
Qed.

(** ** Building the cycles of a battery *)

Lemma build_cycles_length (groups : list (Z * list Row)) :
  ∀ index, ∃ cycles,
    build_cycles index groups = Some cycles ∧ length cycles = length groups.
Proof.
  induction groups as [|[k cycle_df] groups IH]; intros index.
  - exists []. split; reflexivity.
  - simpl.
    destruct (calc_Q_rec (map Current cycle_df) (map Test_Time cycle_df) false)
      as (Qd & HQd & _); [by rewrite !length_map|].
    destruct (calc_Q_rec (map Current cycle_df) (map Test_Time cycle_df) true)
      as (Qc & HQc & _); [by rewrite !length_map|].
    destruct (IH (S index)) as (cycles & Hcycles & Hlen).
    rewrite HQd, HQc, Hcycles. eexists. split; [reflexivity|].
    simpl. by rewrite Hlen.
Qed.

Lemma insert_row_length (r : Row) (rs : list Row) :
  length (insert_row r rs) = S (length rs).
Proof.
  induction rs as [|r' rs IH]; simpl; [reflexivity|].
  destruct (Qle_bool (Test_Time r) (Test_Time r')); simpl; by rewrite ?IH.
Qed.

Lemma sort_values_length (df : list Row) :
  length (sort_values df) = length df.
Proof.
  induction df as [|r df IH]; simpl; [reflexivity|].
  unfold sort_values in *. by rewrite insert_row_length, IH.
Qed.

Lemma insert_key_nonempty (k : Z) (ks : list Z) : insert_key k ks ≠ [].
Proof.
  destruct ks as [|k' ks]; simpl; [discriminate|].
  destruct (k <? k')%Z; [discriminate|].
  destruct (k =? k')%Z; discriminate.
Qed.

Lemma groupby_nonempty (key : Row → Z) (df : list Row) :
  df ≠ [] → groupby key df ≠ [].
Proof.
  destruct df as [|r df]; [congruence|]. intros _ H.
  unfold groupby in H. apply fmap_nil_inv in H. simpl in H.
  by apply insert_key_nonempty in H.
Qed.

(** The two helpers never read out of range on the rows of a battery group:
    every non-empty group yields at least one cycle. *)
Lemma battery_cycles_total (battery_df : list Row) :
  battery_df ≠ [] →
  ∃ cycles, battery_cycles battery_df = Some cycles ∧ cycles ≠ [].
Proof.
  intros Hne. unfold battery_cycles.
  assert (Hsorted : sort_values battery_df ≠ []).
  { intros H. apply (f_equal length) in H.
    rewrite sort_values_length in H. destruct battery_df; [congruence|].
    discriminate. }
  destruct (organize_cycle_index_rec (map Cycle_Index (sort_values battery_df)))
    as (normalised & Hnorm & Hlen & _).
  { intros H. apply fmap_nil_inv in H. contradiction. }
  rewrite Hnorm.
  set (processed_df := zip_with set_Cycle_Index (sort_values battery_df)
                                normalised).
  destruct (build_cycles_length (groupby Cycle_Index processed_df) 0)
    as (cycles & Hcycles & Hclen).
  exists cycles. split; [exact Hcycles|]. intros ->. simpl in Hclen.
  symmetry in Hclen. apply nil_length_inv in Hclen.
  apply groupby_nonempty in Hclen; [contradiction|].
  intros H. apply (f_equal length) in H. unfold processed_df in H.
  rewrite length_zip_with, Hlen, length_map in H. simpl in H.
  destruct (sort_values battery_df); [congruence | simpl in H; lia].
Qed.

(** The kernel size of lines 109-112 is even exactly for zero, two or four
    peaks. *)
Lemma kernel_size_parity (n : nat) :
  ((n = 0 ∨ n = 2 ∨ n = 4)%nat ∧ (kernel_size n mod 2 =? 1)%nat = false)
  ∨ (¬ (n = 0 ∨ n = 2 ∨ n = 4)%nat ∧ (kernel_size n mod 2 =? 1)%nat = true).
Proof.
  unfold kernel_size. destruct (21 <=? n)%nat eqn:Hbig.
  - apply Nat.leb_le in Hbig. right. split; [lia | reflexivity].
  - apply Nat.leb_gt in Hbig.
    destruct (decide (5 ≤ n)%nat) as [H5|H5].
    + rewrite Nat.min_r by lia. right. split; [lia | reflexivity].
    + rewrite Nat.min_l by lia.
      destruct n as [|[|[|[|[|n]]]]]; try lia;
        first [ left; split; [lia | reflexivity]
              | right; split; [lia | reflexivity] ].
Qed.



(** ** Constant peaks *)

Lemma insert_Q_Forall (P : Q → Prop) (x : Q) (l : list Q) :
  P x → Forall P l → Forall P (insert_Q x l).
Proof.
  intros Hx Hl. induction Hl as [|y l Hy Hl IH]; simpl.
  - by constructor.
  - destruct (Qle_bool x y); repeat constructor; auto.
Qed.

Lemma sort_Q_Forall (P : Q → Prop) (l : list Q) :
  Forall P l → Forall P (sort_Q l).
Proof.
  unfold sort_Q. induction 1 as [|x l Hx Hl IH]; simpl; [constructor|].
  by apply insert_Q_Forall.
Qed.

Lemma insert_Q_length (x : Q) (l : list Q) :
  length (insert_Q x l) = S (length l).
Proof.
  induction l as [|y l IH]; simpl; [reflexivity|].
  destruct (Qle_bool x y); simpl; by rewrite ?IH.
Qed.

Lemma sort_Q_length (l : list Q) : length (sort_Q l) = length l.
Proof.
  unfold sort_Q. induction l as [|x l IH]; simpl; [reflexivity|].
  by rewrite insert_Q_length, IH.
Qed.

Lemma nth_Forall_Qeq (c : Q) (l : list Q) (i : nat) :
  Forall (λ x, x == c) l → (i < length l)%nat → nth i l 0 == c.
Proof.
  intros Hl Hi. rewrite nth_lookup.
  destruct (lookup_lt_is_Some_2 l i Hi) as [x Hx]. rewrite Hx. simpl.
  by apply (Forall_lookup_1 _ _ _ _ Hl Hx).
Qed.

(** The median of numbers that are all zero is zero. *)
Lemma median_zero (l : list Q) : Forall (λ x, x == 0) l → median l == 0.
Proof.
  intros Hl. unfold median.
  assert (Hs : Forall (λ x, x == 0) (sort_Q l)) by by apply sort_Q_Forall.
  assert (Hnth : ∀ i, nth i (sort_Q l) 0 == 0).
  { intros i. destruct (decide (i < length (sort_Q l))%nat) as [Hi|Hi].
    - by apply nth_Forall_Qeq.
    - rewrite nth_overflow by lia. reflexivity. }
  destruct (Nat.even (length (sort_Q l))); [|apply Hnth].
  rewrite !Hnth. reflexivity.
Qed.

(** Sorting a window of zeros and copies of a positive [c]. *)
Lemma insert_Q_zero (c : Q) (z m : nat) :
  0 < c →
  insert_Q 0 (replicate z 0 ++ replicate m c)
  = replicate (S z) 0 ++ replicate m c.
Proof.
  intros Hc. destruct z as [|z]; simpl.
  - destruct m as [|m]; simpl; [reflexivity|].
    assert (Qle_bool 0 c = true) as -> by (apply Qle_bool_iff; lra).
    reflexivity.
  - reflexivity.
Qed.

Lemma insert_Q_positive (c : Q) (z m : nat) :
  0 < c →
  insert_Q c (replicate z 0 ++ replicate m c)
  = replicate z 0 ++ replicate (S m) c.
Proof.
  intros Hc. induction z as [|z IH]; simpl.
  - destruct m as [|m]; simpl; [reflexivity|].
    assert (Qle_bool c c = true) as -> by (apply Qle_bool_iff; lra).
    reflexivity.
  - assert (Qle_bool c 0 = false) as ->.
    { destruct (Qle_bool c 0) eqn:E; [|reflexivity].
      apply Qle_bool_iff in E. lra. }
    by rewrite IH.
Qed.

Lemma sort_Q_window (c : Q) (a b d : nat) :
  0 < c →
  sort_Q (replicate a 0 ++ replicate b c ++ replicate d 0)
  = replicate (a + d) 0 ++ replicate b c.
Proof.
  intros Hc. unfold sort_Q. rewrite !foldr_app.
  assert (H1 : foldr insert_Q [] (replicate d 0) = replicate d 0).
  { induction d as [|d IH]; simpl; [reflexivity|].
    rewrite IH. pose proof (insert_Q_zero c d 0 Hc) as H.
    simpl in H. by rewrite !app_nil_r in H. }
  rewrite H1.
  assert (H2 : foldr insert_Q (replicate d 0) (replicate b c)
               = replicate d 0 ++ replicate b c).
  { induction b as [|b IH]; simpl; [by rewrite app_nil_r|].
    rewrite IH. by rewrite insert_Q_positive. }
  rewrite H2. clear H1 H2.
  induction a as [|a IH]; simpl; [reflexivity|].
  rewrite IH. by rewrite insert_Q_zero.
Qed.

(** The window of the median filter at position [i] of a constant sequence:
    zeros from the padding on the left, copies of [c], zeros from the padding
    on the right. *)
Lemma window_constant (c : Q) (n h i : nat) :
  (2 * h + 1 ≤ n)%nat → (i < n)%nat →
  ∃ a b d,
    take (2 * h + 1) (drop i (replicate h 0 ++ replicate n c ++ replicate h 0))
    = replicate a 0 ++ replicate b c ++ replicate d 0
    ∧ (a + d ≤ h)%nat ∧ (a + b + d = 2 * h + 1)%nat.
Proof.
  intros Hk Hi.
  exists (h - i)%nat,
         (Nat.min (2 * h + 1 - (h - i)) (n - (i - h)))%nat,
         (2 * h + 1 - (h - i) - (n - (i - h)))%nat.
  split; [|lia].
  rewrite !drop_app, !drop_replicate, !length_replicate.
  rewrite !take_app, !take_replicate, !length_replicate.
  f_equal; [f_equal; lia|]. f_equal; f_equal; lia.
Qed.

(** The median filter leaves a constant non-negative sequence as it is, up to
    the representation of the number, for every odd kernel that is not longer
    than the sequence. *)
Lemma medfilt_constant (c : Q) (n k : nat) :
  0 <= c → (k mod 2 = 1)%nat → (k ≤ n)%nat →
  ∃ out, medfilt (replicate n c) k = Ok out
    ∧ length out = n ∧ Forall (λ m, m == c) out.
Proof.
  intros Hc Hodd Hk. unfold medfilt.
  assert ((k mod 2 =? 1)%nat = true) as -> by by apply Nat.eqb_eq.
  cbn [negb]. eexists. split; [reflexivity|]. rewrite length_replicate.
  split; [by rewrite length_map, length_seq|].
  apply Forall_fmap, Forall_forall. intros i Hi. cbn beta.
  apply elem_of_seq in Hi. unfold compose.
  set (h := (k / 2)%nat).
  assert (Hkh : k = (2 * h + 1)%nat)
    by (unfold h; pose proof (Nat.div_mod_eq k 2); lia).
  rewrite Hkh.
  destruct (window_constant c n h i) as (a & b & d & -> & Had & Hsum);
    [lia | lia |].
  destruct (Qlt_le_dec 0 c) as [Hpos|Hzero].
  - rewrite sort_Q_window by exact Hpos.
    rewrite nth_lookup, lookup_app_r by (rewrite length_replicate; lia).
    rewrite length_replicate, lookup_replicate_2 by lia. reflexivity.
  - assert (Hc0 : c == 0) by lra.
    apply nth_Forall_Qeq.
    + apply sort_Q_Forall. rewrite !Forall_app.
      repeat split; apply Forall_replicate; lra.
    + rewrite sort_Q_length, !length_app, !length_replicate. lia.
Qed.

(** A battery whose cycles all have the same non-negative peak, and whose
    number of cycles is not zero, two or four, has threshold zero. *)
Lemma constant_peaks_zero_threshold (cycles : list CycleData) (c : Q) :
  0 <= c → Forall (λ cy, peak cy = c) cycles →
  ¬ (length cycles = 0 ∨ length cycles = 2 ∨ length cycles = 4)%nat →
  ∃ Qd_med, smooth (peaks cycles) = Ok Qd_med
    ∧ ths (peaks cycles) Qd_med == 0.
Proof.
  intros Hc Hconst Hn.
  assert (Hpeaks : peaks cycles = replicate (length cycles) c).
  { clear Hn. unfold peaks.
    induction Hconst as [|cy cycles Hcy _ IH]; simpl; [reflexivity|].
    by rewrite Hcy, IH. }
  unfold smooth. rewrite Hpeaks, length_replicate.
  destruct (medfilt_constant c (length cycles) (kernel_size (length cycles)))
    as (out & Hout & Hlen & Hall).
  - exact Hc.
  - destruct (kernel_size_parity (length cycles)) as [[H _]|[_ H]];
      [contradiction|]. by apply Nat.eqb_eq in H.
  - unfold kernel_size. destruct (21 <=? length cycles)%nat eqn:E.
    + by apply Nat.leb_le in E.
    + lia.
  - exists out. split; [exact Hout|]. unfold ths. apply median_zero.
    unfold deviations. apply Forall_forall. intros x Hx.
    apply list_elem_of_lookup in Hx as [i Hx].
    apply lookup_zip_with_Some in Hx as (q & m & -> & Hq & Hm).
    apply lookup_replicate in Hq as [-> _].
    pose proof (Forall_lookup_1 _ _ _ _ Hall Hm) as Hmc. simpl in Hmc.
    rewrite Hmc. assert (c - c == 0) as -> by ring. reflexivity.
Qed.

(** ** The driver *)

Section DriverProperties.

Context {St : Type}.
Variable check_processed_file : string → St → bool.
Variable dump_single_file : BatteryData → St → St.

Local Abbreviation process_battery' :=
  (process_battery check_processed_file dump_single_file).
Local Abbreviation process_file' :=
  (process_file check_processed_file dump_single_file).
Local Abbreviation process' :=
  (process check_processed_file dump_single_file).
Local Abbreviation replay' := (replay dump_single_file).
Local Abbreviation effects' := (effects dump_single_file).
Local Abbreviation oblivious' := (oblivious (St:=St)).

Lemma replay_app (tr1 tr2 : list event) (st : St) :
  replay' (tr1 ++ tr2) st = replay' tr2 (replay' tr1 st).
Proof. unfold replay. apply fold_left_app. Qed.

Lemma count_dumps_app (tr1 tr2 : list event) :
  count_dumps (tr1 ++ tr2) = (count_dumps tr1 + count_dumps tr2)%nat.
Proof. unfold count_dumps. by rewrite List.filter_app, length_app. Qed.

Lemma count_skips_app (tr1 tr2 : list event) :
  count_skips (tr1 ++ tr2) = (count_skips tr1 + count_skips tr2)%nat.
Proof. unfold count_skips. by rewrite List.filter_app, length_app. Qed.

(** *** One battery group *)

(** A battery that the skip check reports as processed: only the skip
    counter moves, whatever the rows are. *)
Lemma process_battery_skip (silent : bool) (battery_id : Z)
    (battery_df : list Row) (acc : nat * nat) (w : World St) :
  check_processed_file (cell_key battery_id) (store w) = true →
  process_battery' silent (battery_id, battery_df) acc w
  = (Ok (fst acc, S (snd acc)),
     mkWorld (store w)
             (trace w ++ [CheckProcessed (cell_key battery_id) true])).
Proof.
  intros Hskip. unfold process_battery, bind, check.
  fold (cell_key battery_id). rewrite Hskip. reflexivity.
Qed.

(** A battery none of whose cycles survives the filter. *)
Lemma process_battery_no_clean (silent : bool) (battery_id : Z)
    (battery_df : list Row) (acc : nat * nat) (w : World St)
    (cycles : list CycleData) (Qd_med : list Q) (K : nat) :
  check_processed_file (cell_key battery_id) (store w) = false →
  battery_cycles battery_df = Some cycles → cycles ≠ [] →
  smooth (peaks cycles) = Ok Qd_med →
  clean_loop cycles (should_keep (peaks cycles) Qd_med) (peaks cycles)
  = Some ([], K) →
  process_battery' silent (battery_id, battery_df) acc w
  = (Ok acc,
     mkWorld (store w)
       (trace w
        ++ CheckProcessed (cell_key battery_id) false
        :: note silent ("Processing battery Battery_" +:+ str_Z battery_id)
        ++ [Print ("No clean cycles found for battery Battery_"
                   +:+ str_Z battery_id)])).
Proof.
  intros Hskip Hcycles Hne Hsmooth Hclean.
  unfold process_battery, bind, check.
  fold (cell_key battery_id). rewrite Hskip.
  unfold of_option, of_result. rewrite Hcycles.
  assert (Hlen : (length (peaks cycles) =? 0)%nat = false).
  { apply Nat.eqb_neq. unfold peaks. rewrite length_map.
    destruct cycles; [congruence | simpl; lia]. }
  destruct silent; simpl; rewrite Hlen, Hsmooth, Hclean; simpl;
    unfold print, emit, ret; simpl; rewrite <- !app_assoc; reflexivity.
Qed.





(** *** What a run does to the world *)

Lemma world_eq (w : World St) (st : St) (tr : list event) :
  trace w = tr → store w = st → w = mkWorld st tr.
Proof. destruct w; simpl; congruence. Qed.

Lemma process_battery_effects (silent : bool) (group : Z * list Row)
    (acc : nat * nat) :
  effects' (process_battery' silent group acc) acc.
Proof.
  intros w. destruct group as [battery_id battery_df].
  unfold process_battery, bind, check, of_option, of_result, when, print,
    emit, dump, ret, raise.
  repeat case_match; simplify_eq/=.
  all: eexists; (split;
    [ apply world_eq;
      [ simpl; rewrite <- ?app_assoc; reflexivity | reflexivity ]
    | intros acc' Hacc; simplify_eq/=;
      unfold count_dumps, count_skips; simpl; lia ]).
Qed.

Lemma effects_for_each {A : Type} (body : A → nat * nat → M St (nat * nat))
    (l : list A) :
  (∀ a acc, effects' (body a acc) acc) →
  ∀ acc, effects' (for_each l body acc) acc.
Proof.
  intros Hbody. induction l as [|a l IH]; intros acc w.
  - exists []. simpl. unfold ret. simpl. split.
    + apply world_eq; [by rewrite app_nil_r | reflexivity].
    + intros acc' [= <-]. unfold count_dumps, count_skips. simpl. lia.
  - simpl. unfold bind.
    destruct (Hbody a acc w) as (new1 & Hw1 & Hacc1).
    destruct (body a acc w) as [[acc1|e] w1] eqn:Hrun; simpl in *.
    + destruct (IH acc1 w1) as (new2 & Hw2 & Hacc2).
      exists (new1 ++ new2). subst w1. simpl in *. split.
      * rewrite Hw2. by rewrite replay_app, app_assoc.
      * intros acc' Hacc'. destruct (Hacc1 acc1 eq_refl) as [Hp1 Hs1].
        destruct (Hacc2 acc' Hacc') as [Hp2 Hs2].
        rewrite count_dumps_app, count_skips_app. lia.
    + exists new1. split; [exact Hw1 | intros acc' Hacc'; discriminate].
Qed.

Lemma process_file_effects (silent : bool) (f : csv_file) (acc : nat * nat) :
  effects' (process_file' silent f acc) acc.
Proof.
  intros w. unfold process_file, bind, when, print, emit, ret.
  destruct (read_csv f) as [df|e] eqn:Hread.
  - destruct (effects_for_each (process_battery' silent)
                (groupby Battery_ID df)
                (process_battery_effects silent) acc
                (if negb silent
                 then mkWorld (store w)
                        (trace w ++ [Print ("Processing " +:+ name f)])
                 else w))
      as (new & Hw & Hacc).
    destruct silent; simpl in *.
    + exists new. split; assumption.
    + exists (Print ("Processing " +:+ name f) :: new).
      split; [by rewrite Hw, <- app_assoc | exact Hacc].
  - destruct silent; simpl; eexists;
      (split;
       [ apply world_eq;
         [ simpl; rewrite <- ?app_assoc; reflexivity | reflexivity ]
       | intros acc' [= <-]; unfold count_dumps, count_skips; simpl; lia ]).
Qed.

Lemma process_effects (silent : bool) (raw_files : list csv_file) :
  effects' (process' silent raw_files) (0%nat, 0%nat).
Proof.
  intros w. unfold process. destruct raw_files as [|f rest].
  - unfold bind, print, emit, ret. simpl. eexists. split.
    + apply world_eq; [reflexivity | reflexivity].
    + intros acc' [= <-]. unfold count_dumps, count_skips. simpl. lia.
  - set (files := f :: rest). unfold bind, when, print, emit, ret.
    destruct (effects_for_each (process_file' silent) files
                (process_file_effects silent) (0%nat, 0%nat)
                (if negb silent
                 then mkWorld (store w)
                        (trace w ++ [Print ("Found " +:+ str_nat (length files)
                                             +:+ " CSV files to process")])
                 else w))
      as (new & Hw & Hacc).
    destruct silent; simpl in *.
    + exists new. split; assumption.
    + exists (Print ("Found " +:+ str_nat (S (length rest))
                     +:+ " CSV files to process") :: new).
      split; [by rewrite Hw, <- app_assoc | exact Hacc].
Qed.

(** *** The trace is write-only *)

Lemma oblivious_bind {A B : Type} (m : M St A) (k : A → M St B) :
  oblivious' m → (∀ a, oblivious' (k a)) → oblivious' (bind m k).
Proof.
  intros Hm Hk w1 w2 Hst. unfold bind.
  destruct (Hm w1 w2 Hst) as [Hr Hs].
  destruct (m w1) as [[a1|e1] w1'], (m w2) as [[a2|e2] w2'];
    simpl in *; simplify_eq; auto.
  by apply Hk.
Qed.

Lemma oblivious_for_each {A B : Type} (body : A → B → M St B) (l : list A) :
  (∀ a acc, oblivious' (body a acc)) → ∀ acc, oblivious' (for_each l body acc).
Proof.
  intros Hbody. induction l as [|a l IH]; intros acc.
  - intros w1 w2 Hst. simpl. auto.
  - simpl. apply oblivious_bind; auto.
Qed.

Lemma oblivious_pure {A : Type} (r : result A) :
  oblivious' (λ w : World St, (r, w)).
Proof. intros w1 w2 Hst. simpl. auto. Qed.

Lemma oblivious_emit (ev : event) : oblivious' (emit ev).
Proof. intros w1 w2 Hst. simpl. auto. Qed.

Lemma oblivious_when (b : bool) (m : M St unit) :
  oblivious' m → oblivious' (when b m).
Proof. intros Hm. destruct b; [exact Hm | apply oblivious_pure]. Qed.

Lemma oblivious_check (key : string) : oblivious' (check check_processed_file key).
Proof. intros w1 w2 Hst. unfold check. simpl. rewrite Hst. auto. Qed.

Lemma oblivious_dump (b : BatteryData) : oblivious' (dump dump_single_file b).
Proof. intros w1 w2 Hst. unfold dump. simpl. rewrite Hst. auto. Qed.

Lemma oblivious_of_option {A : Type} (o : option A) (e : exn) :
  oblivious' (of_option (St:=St) o e).
Proof. destruct o; apply oblivious_pure. Qed.

Lemma oblivious_process_battery (silent : bool) (group : Z * list Row)
    (acc : nat * nat) :
  oblivious' (process_battery' silent group acc).
Proof.
  destruct group as [battery_id battery_df]. unfold process_battery.
  repeat first
    [ apply oblivious_bind; [|intros ?]
    | apply oblivious_check
    | apply oblivious_dump
    | apply oblivious_when
    | apply oblivious_emit
    | apply oblivious_of_option
    | apply oblivious_pure
    | case_match ].
Qed.

Lemma oblivious_process_file (silent : bool) (f : csv_file)
    (acc : nat * nat) :
  oblivious' (process_file' silent f acc).
Proof.
  unfold process_file. apply oblivious_bind.
  - intros w1 w2 Hst. destruct silent; simpl; auto.
  - intros _. destruct (read_csv f).
    + apply oblivious_for_each. apply oblivious_process_battery.
    + intros w1 w2 Hst. simpl. auto.
Qed.

Lemma for_each_app {A B : Type} (body : A → B → M St B) (l1 l2 : list A)
    (acc : B) (w : World St) :
  for_each (l1 ++ l2) body acc w
  = bind (for_each l1 body acc) (for_each l2 body) w.
Proof.
  revert acc w. induction l1 as [|a l1 IH]; intros acc w.
  - reflexivity.
  - simpl. unfold bind.
    destruct (body a acc w) as [[acc1|e] w1]; [|reflexivity].
    rewrite IH. reflexivity.
Qed.


(** C10: when the threshold is 0, no cycle passes the strict comparison
    with three times the threshold: the filter keeps nothing and a battery
    with these cycles is reported as having no clean cycles, without a dump
    and without a change of the counters. *)
Theorem zero_threshold_rejects_all (cycles : list CycleData)
    (Qd_med : list Q) :
  smooth (peaks cycles) = Ok Qd_med →
  ths (peaks cycles) Qd_med == 0 →
  clean_loop cycles (should_keep (peaks cycles) Qd_med) (peaks cycles)
  = Some ([], 0%nat)
  ∧ ∀ silent battery_id battery_df acc w,
      check_processed_file (cell_key battery_id) (store w) = false →
      battery_cycles battery_df = Some cycles → cycles ≠ [] →
      process_battery' silent (battery_id, battery_df) acc w
      = (Ok acc,
         mkWorld (store w)
           (trace w
            ++ CheckProcessed (cell_key battery_id) false
            :: note silent
                 ("Processing battery Battery_" +:+ str_Z battery_id)
            ++ [Print ("No clean cycles found for battery Battery_"
                       +:+ str_Z battery_id)])).
Proof.
  intros Hsmooth Hths.
  destruct (clean_loop_kept cycles Qd_med Hsmooth) as (Hrun & _).
  simpl in Hrun.
  assert (Hnone : kept_positions (should_keep (peaks cycles) Qd_med)
                    (peaks cycles) 0 (length cycles) = []).
  { apply elem_of_nil_inv. intros i Hi.
    apply elem_of_kept_positions in Hi as [_ Hi].
    apply keeps_should_keep in Hi as (q & m & _ & _ & Hdev & _).
    pose proof (Qabs_nonneg (q - m)) as Hpos.
    rewrite Hths in Hdev. lra. }
  rewrite Hnone in Hrun. simpl in Hrun. split; [exact Hrun|].
  intros silent battery_id battery_df acc w Hskip Hcycles Hne.
  by apply (process_battery_no_clean silent battery_id battery_df acc w
              cycles Qd_med 0).
Qed.

Lemma process_battery_no_valid (silent : bool) (battery_id : Z)
    (battery_df : list Row) (acc : nat * nat) (w : World St) :
  check_processed_file (cell_key battery_id) (store w) = false →
  battery_cycles battery_df = Some [] →
  process_battery' silent (battery_id, battery_df) acc w
  = (Ok acc,
     mkWorld (store w)
       (trace w
        ++ CheckProcessed (cell_key battery_id) false
        :: note silent ("Processing battery Battery_" +:+ str_Z battery_id)
        ++ [Print ("No valid cycles found for battery Battery_"
                   +:+ str_Z battery_id)])).
Proof.
  intros Hskip Hcycles. unfold process_battery, bind, check.
  fold (cell_key battery_id). rewrite Hskip.
  unfold of_option, of_result. rewrite Hcycles.
  destruct silent; simpl; unfold print, emit, ret; simpl;
    rewrite <- !app_assoc; reflexivity.
Qed.

Lemma process_file_unreadable (silent : bool) (f : csv_file) (e : exn)
    (acc : nat * nat) (w : World St) :
  read_csv f = Raise e →
  process_file' silent f acc w
  = (Ok acc,
     mkWorld (store w)
       (trace w ++ note silent ("Processing " +:+ name f)
        ++ [Print ("Error reading " +:+ path f +:+ ": " +:+ str_exn e)])).
Proof.
  intros Hread. unfold process_file, bind, when, print, emit, ret.
  rewrite Hread. destruct silent; simpl; [reflexivity|].
  by rewrite <- app_assoc.
Qed.

(** The loop over files gives the same counters and the same store with and
    without an unreadable file in the list. *)
Lemma for_each_unreadable (silent : bool) (f : csv_file) (e : exn)
    (pre post : list csv_file) (acc : nat * nat) (w1 w2 : World St) :
  read_csv f = Raise e → store w1 = store w2 →
  fst (for_each (pre ++ f :: post) (process_file' silent) acc w1)
  = fst (for_each (pre ++ post) (process_file' silent) acc w2)
  ∧ store (snd (for_each (pre ++ f :: post) (process_file' silent) acc w1))
    = store (snd (for_each (pre ++ post) (process_file' silent) acc w2)).
Proof.
  intros Hread Hst. rewrite !for_each_app. unfold bind.
  destruct (oblivious_for_each (process_file' silent) pre
              (oblivious_process_file silent) acc w1 w2 Hst) as [Hr Hs].
  destruct (for_each pre (process_file' silent) acc w1) as [[acc1|e1] w1'],
           (for_each pre (process_file' silent) acc w2) as [[acc2|e2] w2'];
    simpl in Hr, Hs; simplify_eq; auto.
  change (for_each (f :: post) (process_file' silent) acc2 w1')
    with (bind (process_file' silent f acc2)
               (for_each post (process_file' silent)) w1').
  unfold bind. rewrite (process_file_unreadable silent f e acc2 w1' Hread).
  apply (oblivious_for_each (process_file' silent) post
           (oblivious_process_file silent) acc2). exact Hs.
Qed.

(** C5, as the code has it: a file on which [read_csv] raises is absorbed:
    the error is printed, counters and store stay as they are, and the
    batch ends with the counters (or the exception) and the store that it
    has without that file. *)
Theorem unreadable_file_skipped (silent : bool) (f : csv_file) (e : exn)
    (pre post : list csv_file) (acc : nat * nat) (w : World St) :
  read_csv f = Raise e →
  process_file' silent f acc w
  = (Ok acc,
     mkWorld (store w)
       (trace w ++ note silent ("Processing " +:+ name f)
        ++ [Print ("Error reading " +:+ path f +:+ ": " +:+ str_exn e)]))
  ∧ fst (process' silent (pre ++ f :: post) w)
    = fst (process' silent (pre ++ post) w)
  ∧ store (snd (process' silent (pre ++ f :: post) w))
    = store (snd (process' silent (pre ++ post) w)).
Proof.
  intros Hread. split; [by apply process_file_unreadable|].
  destruct (pre ++ post) as [|g rest] eqn:Hrest.
  - apply app_eq_nil in Hrest as [-> ->]. unfold process.
    cbn [app for_each]. unfold bind, when.
    destruct silent; cbn [negb]; unfold print, emit, ret;
      rewrite (process_file_unreadable _ f e _ _ Hread); simpl; auto.
  - rewrite <- Hrest. unfold process.
    assert (Hloop : ∀ w1 w2, store w1 = store w2 →
      fst (for_each (pre ++ f :: post) (process_file' silent)
             (0%nat, 0%nat) w1)
      = fst (for_each (pre ++ post) (process_file' silent)
               (0%nat, 0%nat) w2)
      ∧ store (snd (for_each (pre ++ f :: post) (process_file' silent)
                      (0%nat, 0%nat) w1))
        = store (snd (for_each (pre ++ post) (process_file' silent)
                        (0%nat, 0%nat) w2)))
      by (intros w1 w2; by apply for_each_unreadable with e).
    destruct (pre ++ f :: post) as [|g' rest'] eqn:Hfull.
    { destruct pre; discriminate. }
    rewrite Hrest. rewrite Hrest in Hloop.
    unfold bind, when, print, emit, ret.
    destruct silent; simpl; apply Hloop; reflexivity.
Qed.

(** C7: when [process] returns, the pair it returns is the number of dumps
    and the number of positive skip checks of the run, and the store is the
    initial store after these dumps; a battery that the skip check reports
    as processed only adds one to the second counter, whatever its rows
    are; a battery dropped for lack of cycles changes neither counter and
    is not dumped. *)
Theorem process_counters :
  (∀ silent raw_files w p s w',
     process' silent raw_files w = (Ok (p, s), w') →
     ∃ new, trace w' = trace w ++ new
       ∧ store w' = replay dump_single_file new (store w)
       ∧ p = count_dumps new ∧ s = count_skips new)
  ∧ (∀ silent battery_id battery_df acc w,
       check_processed_file (cell_key battery_id) (store w) = true →
       process_battery' silent (battery_id, battery_df) acc w
       = (Ok (fst acc, S (snd acc)),
          mkWorld (store w)
            (trace w ++ [CheckProcessed (cell_key battery_id) true])))
  ∧ (∀ silent battery_id battery_df acc w cycles,
       check_processed_file (cell_key battery_id) (store w) = false →
       battery_cycles battery_df = Some cycles → dropped cycles →
       ∃ new,
         process_battery' silent (battery_id, battery_df) acc w
         = (Ok acc, mkWorld (store w) (trace w ++ new))
         ∧ count_dumps new = 0%nat ∧ count_skips new = 0%nat).
Proof.
  split; [|split].
  - intros silent raw_files w p s w' Hrun.
    destruct (process_effects silent raw_files w) as (new & Hw & Hacc).
    rewrite Hrun in Hw, Hacc. simpl in Hw, Hacc.
    destruct (Hacc (p, s) eq_refl) as [Hp Hs]. simpl in Hp, Hs.
    exists new. subst w'. simpl. auto.
  - intros. by apply process_battery_skip.
  - intros silent battery_id battery_df acc w cycles Hskip Hcycles Hdrop.
    destruct Hdrop as [-> | (Qd_med & K & Hsmooth & Hclean)].
    + eexists. split; [by apply process_battery_no_valid|].
      destruct silent; split; reflexivity.
    + destruct cycles as [|c cycles'] eqn:Hc.
      * eexists. split; [by apply process_battery_no_valid|].
        destruct silent; split; reflexivity.
      * eexists. split.
        { apply (process_battery_no_clean silent battery_id battery_df acc w
                   (c :: cycles') Qd_med K); auto. }
        destruct silent; split; reflexivity.
Qed.

End DriverProperties.

(** * Instances *)

Lemma outlier_filter_keeps_witness :
  smooth (peaks fading_cycles) = Ok (smoothed fading_cycles)
  ∧ ∃ (kept : list nat) (clean_cycles : list CycleData),
      clean_loop fading_cycles
        (should_keep (peaks fading_cycles) (smoothed fading_cycles))
        (peaks fading_cycles)
      = Some (clean_cycles, length kept)
      ∧ length clean_cycles = length kept.
Proof.
  split; [vm_compute; reflexivity|].
  destruct (outlier_filter_keeps fading_cycles (smoothed fading_cycles))
    as (_ & kept & clean_cycles & H1 & _ & H2 & _).
  - vm_compute. reflexivity.
  - exists kept, clean_cycles. split; [exact H1 | exact H2].
Defined.

Lemma smooth_even_window_witness :
  (length (peaks (take 2 fading_cycles)) = 2%nat
   ∨ length (peaks (take 2 fading_cycles)) = 4%nat)
  ∧ smooth (peaks (take 2 fading_cycles))
    = Raise (ValueError "Each element of kernel_size should be odd.").
Proof.
  split; [left; reflexivity|].
  apply (smooth_even_window (peaks (take 2 fading_cycles))).
  left. reflexivity.
Defined.


Lemma zero_threshold_rejects_all_witness :
  smooth (peaks constant_cycles) = Ok (smoothed constant_cycles)
  ∧ ths (peaks constant_cycles) (smoothed constant_cycles) == 0
  ∧ clean_loop constant_cycles
      (should_keep (peaks constant_cycles) (smoothed constant_cycles))
      (peaks constant_cycles)
    = Some ([], 0%nat).
Proof.
  split; [vm_compute; reflexivity|]. split; [vm_compute; reflexivity|].
  apply (zero_threshold_rejects_all pkl_exists write_pkl constant_cycles
           (smoothed constant_cycles)).
  - vm_compute. reflexivity.
  - vm_compute. reflexivity.
Defined.

Lemma unreadable_file_skipped_witness :
  read_csv unreadable_file = Raise (ReadError "No columns to parse from file")
  ∧ fst (process pkl_exists write_pkl true
           ([mixed_file] ++ unreadable_file :: [fading_file])
           (mkWorld ["CSV_Battery_3"] []))
    = fst (process pkl_exists write_pkl true ([mixed_file] ++ [fading_file])
             (mkWorld ["CSV_Battery_3"] [])).
Proof.
  split; [reflexivity|].
  exact (proj1 (proj2
    (unreadable_file_skipped pkl_exists write_pkl true unreadable_file
       (ReadError "No columns to parse from file")
       [mixed_file] [fading_file] (0%nat, 0%nat)
       (mkWorld ["CSV_Battery_3"] []) eq_refl))).
Defined.

Lemma process_counters_witness :
  ∃ new,
    trace (snd (process pkl_exists write_pkl true [mixed_file]
                  (mkWorld ["CSV_Battery_3"] [])))
    = [] ++ new
    ∧ 1%nat = count_dumps new ∧ 1%nat = count_skips new.
Proof.
  destruct (proj1 (process_counters pkl_exists write_pkl) true [mixed_file]
              (mkWorld ["CSV_Battery_3"] []) 1%nat 1%nat
              (snd (process pkl_exists write_pkl true [mixed_file]
                      (mkWorld ["CSV_Battery_3"] []))))
    as (new & H1 & _ & H2 & H3).
  - rewrite (surjective_pairing (process _ _ _ _ _)) at 1.
    apply (f_equal2 pair); [vm_compute|]; reflexivity.
  - exists new. split; [exact H1|]. split; [exact H2 | exact H3].
Defined.

(** C5 as stated fails: the median filter raises on a battery with two
    cycles, the exception leaves [process], and the second file of the batch
    is never read. *)
Lemma two_cycle_battery_aborts_batch :
  process pkl_exists write_pkl true [two_cycle_file; fading_file]
    (mkWorld [] [])
  = (Raise (ValueError "Each element of kernel_size should be odd."),
     mkWorld [] [CheckProcessed "CSV_Battery_1" false]).
Proof. vm_compute. reflexivity. Qed.

(** * Sample runs *)

Example organize_example :
  organize_cycle_index [1; 1; 2; 2; 2; 3; 1]%Z = Some [1; 1; 2; 2; 2; 3; 4]%Z.
Proof. reflexivity. Qed.

Example fading_survivors :
  clean_loop fading_cycles
    (should_keep (peaks fading_cycles) (smoothed fading_cycles))
    (peaks fading_cycles)
  = Some (renumber fading_cycles 0 [0; 1; 2; 4; 5; 6]%nat, 6%nat).
Proof. vm_compute. reflexivity. Qed.

(** Peaks of exactly 0.1 pass the deviation test here and are still
    rejected by the floor; the peaks 0.100001 at positions 1 and 4 stay. *)
Example floor_is_strict :
  should_keep (peaks floor_cycles) (smoothed floor_cycles)
  = [true; true; false; true; true; false; true]
  ∧ kept_positions (should_keep (peaks floor_cycles) (smoothed floor_cycles))
      (peaks floor_cycles) 0 (length floor_cycles)
    = [1; 4]%nat.
Proof. split; vm_compute; reflexivity. Qed.

Example mixed_run :
  fst (process pkl_exists write_pkl true [unreadable_file; mixed_file]
         (mkWorld ["CSV_Battery_3"] []))
  = Ok (1%nat, 1%nat).
Proof. vm_compute. reflexivity. Qed.

(** * Further properties *)

(** * Further properties of the two helpers *)

(** ** Capacity integration *)

Lemma foldl_opt_ext {A B : Type} (f g : A → B → option A) (l : list B) :
  (∀ a b, b ∈ l → f a b = g a b) →
  ∀ a, foldl_opt f a l = foldl_opt g a l.
Proof.
  induction l as [|b l IH]; intros Hfg a; [reflexivity|].
  simpl. rewrite (Hfg a b) by left.
  destruct (g a b); [|reflexivity]. apply IH. intros a' b' Hb'.
  apply Hfg. by right.
Qed.

(** Every position of the result of [calc_Q] is filled. *)
Lemma calc_Q_lookup (I t : list Q) (is_charge : bool) (Qs : list Q) (i : nat) :
  length Qs = length I → (i < length I)%nat → ∃ q, Qs !! i = Some q.
Proof. intros Hl Hi. apply lookup_lt_is_Some_2. lia. Qed.

(** X1: the current of the first sample is never read: two current
    sequences that differ only in their first element give the same
    capacities, for every time sequence and either polarity. *)
Theorem calc_Q_first_current_ignored (x y : Q) (I t : list Q)
    (is_charge : bool) :
  calc_Q (x :: I) t is_charge = calc_Q (y :: I) t is_charge.
Proof.
  unfold calc_Q. simpl length. apply foldl_opt_ext.
  intros Qs i Hi. unfold range1 in Hi. apply elem_of_seq in Hi.
  destruct i as [|i]; [lia|]. reflexivity.
Qed.

(** X2: when no sample after the first has the polarity that the flag
    selects (no positive current under the charge flag, no negative current
    under the discharge flag; in particular for an all-zero current), every
    capacity is 0, whatever the times are. *)
Theorem calc_Q_nothing_selected (I t : list Q) (is_charge : bool) :
  length I = length t →
  (∀ i Ii, (1 ≤ i)%nat → I !! i = Some Ii →
     if is_charge then Ii <= 0 else 0 <= Ii) →
  calc_Q I t is_charge = Some (replicate (length I) 0).
Proof.
  intros Hlen Hsel.
  destruct (calc_Q_rec I t is_charge Hlen) as (Qs & Hrun & Hl & H0 & Hrec).
  rewrite Hrun. f_equal.
  assert (Hall : ∀ i, (i < length I)%nat → Qs !! i = Some 0).
  { induction i as [|i IH]; intros Hi.
    - destruct (lookup_lt_is_Some_2 Qs 0) as [q Hq]; [lia|].
      by rewrite Hq, (H0 q Hq).
    - destruct (lookup_lt_is_Some_2 I (S i)) as [Ii HI]; [lia|].
      destruct (lookup_lt_is_Some_2 t (S i)) as [ti Hti]; [lia|].
      destruct (lookup_lt_is_Some_2 t i) as [tp Htp]; [lia|].
      pose proof (Hrec (S i) Ii ti tp 0) as Hstep. simpl in Hstep.
      rewrite Nat.sub_0_r in Hstep.
      rewrite (Hstep ltac:(lia) HI Hti Htp (IH ltac:(lia))).
      f_equal. unfold next_Q. specialize (Hsel (S i) Ii ltac:(lia) HI).
      destruct is_charge; simpl.
      + apply Qlt_bool_false_iff in Hsel. by rewrite Hsel.
      + apply Qlt_bool_false_iff in Hsel. by rewrite Hsel. }
  apply list_eq. intros i. destruct (decide (i < length I)%nat) as [Hi|Hi].
  - rewrite Hall by exact Hi. symmetry. by apply lookup_replicate_2.
  - rewrite !lookup_ge_None_2; [reflexivity | rewrite length_replicate; lia | lia].
Qed.

Lemma calc_Q_nothing_selected_witness :
  calc_Q [5; 0; -2; 0] [0; 10; 30; 70] true = Some [0; 0; 0; 0].
Proof.
  apply (calc_Q_nothing_selected [5; 0; -2; 0] [0; 10; 30; 70] true).
  - reflexivity.
  - intros [|[|[|[|i]]]] Ii Hi HI; simpl in HI; try discriminate; try lia;
      injection HI as <-; discriminate.
Defined.

(** One step never lowers the total when time does not go back. *)
Lemma next_Q_ge (is_charge : bool) (Ii ti tp p : Q) :
  tp <= ti → p <= next_Q is_charge Ii ti tp p.
Proof.
  intros Hdt. unfold next_Q.
  destruct (is_charge && Qlt_bool 0 Ii) eqn:Hc.
  - apply andb_true_iff in Hc as [_ Hc]. apply Qlt_bool_iff in Hc.
    assert (0 <= Ii * (ti - tp) / 3600).
    { apply Qle_shift_div_l; [reflexivity|]. rewrite Qmult_0_l.
      apply Qmult_le_0_compat; lra. }
    lra.
  - destruct (negb is_charge && Qlt_bool Ii 0) eqn:Hd; [|apply Qle_refl].
    apply andb_true_iff in Hd as [_ Hd]. apply Qlt_bool_iff in Hd.
    assert (0 <= (- Ii) * (ti - tp) / 3600) as Hinc.
    { apply Qle_shift_div_l; [reflexivity|]. rewrite Qmult_0_l.
      apply Qmult_le_0_compat; lra. }
    assert (p - Ii * (ti - tp) / 3600 == p + (- Ii) * (ti - tp) / 3600)
      as -> by (unfold Qdiv; ring).
    lra.
Qed.

Lemma calc_Q_non_decreasing (I t Qs : list Q) (is_charge : bool) :
  length I = length t → non_decreasing t →
  calc_Q I t is_charge = Some Qs →
  non_decreasing Qs ∧ Forall (λ q, 0 <= q) Qs.
Proof.
  intros Hlen Htime Hrun'.
  destruct (calc_Q_rec I t is_charge Hlen) as (Qs' & Hrun & Hl & H0 & Hrec).
  assert (Qs' = Qs) as -> by congruence.
  assert (Hmono : non_decreasing Qs).
  { intros i p q Hp Hq.
    assert (Hi : (S i < length I)%nat)
      by (rewrite <- Hl; by apply lookup_lt_Some in Hq).
    destruct (lookup_lt_is_Some_2 I (S i)) as [Ii HI]; [lia|].
    destruct (lookup_lt_is_Some_2 t (S i)) as [ti Hti]; [lia|].
    destruct (lookup_lt_is_Some_2 t i) as [tp Htp]; [lia|].
    pose proof (Hrec (S i) Ii ti tp p) as Hstep.
    simpl in Hstep. rewrite Nat.sub_0_r in Hstep.
    specialize (Hstep ltac:(lia) HI Hti Htp Hp).
    assert (q = next_Q is_charge Ii ti tp p) as -> by congruence.
    apply next_Q_ge. by apply (Htime i). }
  split; [exact Hmono|].
  apply Forall_lookup. intros i. induction i as [|i IH]; intros q Hq.
  - rewrite (H0 q Hq). apply Qle_refl.
  - destruct (lookup_lt_is_Some_2 Qs i) as [p Hp].
    { apply lookup_lt_Some in Hq. lia. }
    apply Qle_trans with p; [by apply IH | by apply (Hmono i)].
Qed.

(** X3: for either polarity and any currents, when the times are
    non-decreasing the capacity sequence never decreases and is never
    negative. *)
Theorem calc_Q_monotone (I t : list Q) (is_charge : bool) :
  length I = length t →
  (∀ i a b, t !! i = Some a → t !! S i = Some b → a <= b) →
  ∃ Qs, calc_Q I t is_charge = Some Qs
    ∧ (∀ i p q, Qs !! i = Some p → Qs !! S i = Some q → p <= q)
    ∧ (∀ i q, Qs !! i = Some q → 0 <= q).
Proof.
  intros Hlen Htime.
  destruct (calc_Q_rec I t is_charge Hlen) as (Qs & Hrun & _).
  destruct (calc_Q_non_decreasing I t Qs is_charge Hlen Htime Hrun)
    as [Hmono Hpos].
  exists Qs. split; [exact Hrun|]. split; [exact Hmono|].
  intros i q Hq. by apply (Forall_lookup_1 _ _ _ _ Hpos Hq).
Qed.

Lemma calc_Q_monotone_witness :
  ∃ Qs, calc_Q [0; 2; -1] [0; 1800; 3600] true = Some Qs
    ∧ (∀ i q, Qs !! i = Some q → 0 <= q).
Proof.
  destruct (calc_Q_monotone [0; 2; -1] [0; 1800; 3600] true)
    as (Qs & H1 & _ & H2).
  - reflexivity.
  - intros [|[|[|i]]] a b Ha Hb; simpl in *; try discriminate;
      injection Ha as <-; injection Hb as <-; discriminate.
  - exists Qs. split; [exact H1 | exact H2].
Defined.



(** ** Cycle-index normalisation *)

Lemma normalise_length (l : list Z) :
  ∀ current prev, length (normalise current prev l) = length l.
Proof.
  induction l as [|y l IH]; intros current prev; simpl; [reflexivity|].
  by rewrite IH.
Qed.

Lemma normalise_rec (l : list Z) :
  ∀ current prev,
    normalised_from (prev :: l) (current :: normalise current prev l) 1.
Proof.
  induction l as [|y0 l IH]; intros current prev i x y p Hi Hx Hy Hp.
  - destruct i as [|[|i]]; simpl in Hx; [lia | discriminate | discriminate].
  - destruct i as [|[|i]]; [lia | |].
    + simpl in *. by simplify_eq.
    + simpl in Hx, Hy, Hp |- *. rewrite ?Nat.sub_0_r in *.
      apply (IH _ y0 (S i) x y p); simpl; rewrite ?Nat.sub_0_r;
        auto; lia.
Qed.

(** The recurrence, the length and the first element determine the
    normalised sequence. *)
Lemma normalised_unique (raw out out' : list Z) :
  length out = length raw → length out' = length raw →
  out !! 0%nat = out' !! 0%nat →
  normalised_from raw out 1 → normalised_from raw out' 1 →
  out = out'.
Proof.
  intros Hl Hl' H0 Hrec Hrec'. apply list_eq.
  induction i as [|i IH]; [exact H0|].
  destruct (decide (S i < length raw)%nat) as [Hi|Hi].
  - destruct (lookup_lt_is_Some_2 raw (S i)) as [x Hx]; [lia|].
    destruct (lookup_lt_is_Some_2 raw i) as [y Hy]; [lia|].
    destruct (lookup_lt_is_Some_2 out i) as [p Hp]; [lia|].
    pose proof (Hrec (S i) x y p) as H1. pose proof (Hrec' (S i) x y p) as H2.
    simpl in H1, H2. rewrite Nat.sub_0_r in H1, H2.
    rewrite H1, H2; auto; try lia. by rewrite <- IH.
  - rewrite !lookup_ge_None_2; [reflexivity | lia | lia].
Qed.

(** The in-place loop computes the pure scan [normalise]. *)
Lemma organize_cycle_index_normalise (x : Z) (l : list Z) :
  organize_cycle_index (x :: l) = Some (x :: normalise x x l).
Proof.
  destruct (organize_cycle_index_rec (x :: l)) as (out & Hrun & Hl & H0 & Hrec);
    [discriminate|].
  rewrite Hrun. f_equal.
  apply (normalised_unique (x :: l)); auto.
  - simpl. by rewrite normalise_length.
  - apply normalise_rec.
Qed.

Lemma normalise_idem (l : list Z) :
  ∀ current prev,
    normalise current current (normalise current prev l)
    = normalise current prev l.
Proof.
  induction l as [|y l IH]; intros current prev; simpl; [reflexivity|].
  destruct (bool_decide (y ≠ prev)).
  - rewrite bool_decide_eq_true_2 by lia. f_equal. apply IH.
  - rewrite bool_decide_eq_false_2 by (intros H; by apply H).
    f_equal. apply IH.
Qed.

(** X5: normalising is idempotent: a sequence that comes out of the
    normalisation is returned unchanged when it is normalised again. *)
Theorem organize_cycle_index_idempotent (raw out : list Z) :
  organize_cycle_index raw = Some out →
  organize_cycle_index out = Some out.
Proof.
  destruct raw as [|x l]; [discriminate|].
  rewrite organize_cycle_index_normalise. intros [= <-].
  rewrite organize_cycle_index_normalise. by rewrite normalise_idem.
Qed.

Lemma organize_cycle_index_idempotent_witness :
  organize_cycle_index [4; 5; 5; 6; 7]%Z = Some [4; 5; 5; 6; 7]%Z.
Proof.
  apply (organize_cycle_index_idempotent [4; 9; 9; 2; 4]%Z). reflexivity.
Defined.

(** Between neighbours the normalised index stays or grows by one, according
    to whether the raw index stays or changes. *)
Lemma organize_step_cases (raw out : list Z) (k : nat) (x y a b : Z) :
  organize_cycle_index raw = Some out →
  raw !! k = Some y → raw !! S k = Some x →
  out !! k = Some a → out !! S k = Some b →
  (x = y ∧ b = a) ∨ (x ≠ y ∧ b = (a + 1)%Z).
Proof.
  intros Hrun Hy Hx Ha Hb.
  destruct (organize_cycle_index_rec raw) as (out' & Hrun' & _ & _ & Hrec).
  { intros ->. discriminate. }
  assert (out' = out) as -> by congruence.
  pose proof (Hrec (S k) x y a) as Hstep. simpl in Hstep.
  rewrite Nat.sub_0_r in Hstep. specialize (Hstep ltac:(lia) Hx Hy Ha).
  rewrite Hb in Hstep. injection Hstep as ->.
  case_bool_decide as Hd; [right; auto|].
  left. split; [|reflexivity]. destruct (decide (x = y)); [auto | contradiction].
Qed.

Lemma organize_length (raw out : list Z) :
  organize_cycle_index raw = Some out → length out = length raw.
Proof.
  intros Hrun.
  destruct (organize_cycle_index_rec raw) as (out' & Hrun' & Hl & _).
  { intros ->. discriminate. }
  congruence.
Qed.

Lemma organize_monotone_between (raw out : list Z) (i j : nat)
    (p q : Z) :
  organize_cycle_index raw = Some out →
  (i ≤ j)%nat → out !! i = Some p → out !! j = Some q →
  (p ≤ q ≤ p + Z.of_nat (j - i))%Z.
Proof.
  intros Hrun Hij Hp. pose proof (organize_length raw out Hrun) as Hlen.
  revert q. induction Hij as [|j Hij IH]; intros q Hq.
  - assert (q = p) as -> by congruence. lia.
  - assert (Hj : (S j < length raw)%nat)
      by (rewrite <- Hlen; by apply lookup_lt_Some in Hq).
    destruct (lookup_lt_is_Some_2 out j) as [a Ha]; [lia|].
    destruct (lookup_lt_is_Some_2 raw j) as [y Hy]; [lia|].
    destruct (lookup_lt_is_Some_2 raw (S j)) as [x Hx]; [lia|].
    specialize (IH a Ha).
    destruct (organize_step_cases raw out j x y a q Hrun Hy Hx Ha Hq)
      as [[_ ->]|[_ ->]]; lia.
Qed.



(** X7: two samples get the same normalised index exactly when the raw
    index does not change anywhere between them: the cycles are the maximal
    runs of equal raw values, and a raw value that comes back later starts a
    new cycle. *)
Theorem organize_cycle_index_same_run (raw out : list Z) (i j : nat)
    (p q : Z) :
  organize_cycle_index raw = Some out →
  (i ≤ j)%nat → out !! i = Some p → out !! j = Some q →
  p = q ↔ ∀ k, (i ≤ k < j)%nat → raw !! S k = raw !! k.
Proof.
  intros Hrun Hij Hp. pose proof (organize_length raw out Hrun) as Hlen.
  revert q. induction Hij as [|j Hij IH]; intros q Hq.
  - split; [intros _ k Hk; lia|]. intros _. congruence.
  - assert (Hj : (S j < length raw)%nat)
      by (rewrite <- Hlen; by apply lookup_lt_Some in Hq).
    destruct (lookup_lt_is_Some_2 out j) as [a Ha]; [lia|].
    destruct (lookup_lt_is_Some_2 raw j) as [y Hy]; [lia|].
    destruct (lookup_lt_is_Some_2 raw (S j)) as [x Hx]; [lia|].
    pose proof (organize_monotone_between raw out i j p a Hrun Hij Hp Ha)
      as Hmono.
    destruct (organize_step_cases raw out j x y a q Hrun Hy Hx Ha Hq)
      as [[-> ->]|[Hne ->]].
    + rewrite (IH a Ha). split.
      * intros H k Hk. destruct (decide (k = j)) as [->|]; [congruence|].
        apply H. lia.
      * intros H k Hk. apply H. lia.
    + split; [lia|]. intros H. specialize (H j ltac:(lia)). congruence.
Qed.

Lemma organize_cycle_index_same_run_witness :
  (1%Z = 3%Z) ↔ ∀ k, (0 ≤ k < 3)%nat →
    [1; 1; 2; 1]%Z !! S k = [1; 1; 2; 1]%Z !! k.
Proof.
  apply (organize_cycle_index_same_run [1; 1; 2; 1]%Z [1; 1; 2; 3]%Z 0 3 1 3);
    [reflexivity | lia | reflexivity | reflexivity].
Defined.

(** * Further properties of the cycle builder *)

(** ** Grouping and sorting *)

Lemma elem_of_insert_key (k x : Z) (ks : list Z) :
  x ∈ insert_key k ks ↔ x = k ∨ x ∈ ks.
Proof.
  induction ks as [|k' ks IH]; simpl.
  - rewrite list_elem_of_singleton, elem_of_nil. tauto.
  - destruct (k <? k')%Z eqn:Hlt; [by rewrite elem_of_cons|].
    destruct (k =? k')%Z eqn:Heq.
    + apply Z.eqb_eq in Heq. subst. rewrite elem_of_cons. tauto.
    + rewrite !elem_of_cons, IH. tauto.
Qed.

Lemma elem_of_sorted_keys (x : Z) (ks : list Z) :
  x ∈ sorted_keys ks ↔ x ∈ ks.
Proof.
  unfold sorted_keys. induction ks as [|k ks IH]; simpl; [reflexivity|].
  rewrite elem_of_insert_key, elem_of_cons, IH. reflexivity.
Qed.

Lemma insert_key_sorted (k : Z) (ks : list Z) :
  StronglySorted Z.lt ks → StronglySorted Z.lt (insert_key k ks).
Proof.
  induction 1 as [|k' ks Hs IH Hall]; simpl.
  - repeat constructor.
  - destruct (k <? k')%Z eqn:Hlt.
    + apply Z.ltb_lt in Hlt. constructor; [by constructor|].
      constructor; [exact Hlt|].
      eapply Forall_impl; [exact Hall|]. intros z Hz. simpl in Hz. lia.
    + destruct (k =? k')%Z eqn:Heq; [by constructor|].
      apply Z.ltb_ge in Hlt. apply Z.eqb_neq in Heq.
      constructor; [exact IH|].
      apply Forall_forall. intros z Hz. apply elem_of_insert_key in Hz.
      destruct Hz as [->|Hz]; [lia|].
      by apply (proj1 (Forall_forall _ _) Hall).
Qed.

Lemma sorted_keys_sorted (ks : list Z) : StronglySorted Z.lt (sorted_keys ks).
Proof.
  unfold sorted_keys. induction ks as [|k ks IH]; simpl; [constructor|].
  by apply insert_key_sorted.
Qed.

Lemma sorted_keys_NoDup (ks : list Z) : NoDup (sorted_keys ks).
Proof.
  pose proof (sorted_keys_sorted ks) as Hs.
  induction Hs as [|k l Hs IH Hall]; constructor; [|exact IH].
  intros Hin. pose proof (proj1 (Forall_forall _ _) Hall k Hin). lia.
Qed.

Lemma groupby_lookup (key : Row → Z) (df : list Row) (i : nat) (k : Z)
    (g : list Row) :
  groupby key df !! i = Some (k, g) →
  k ∈ map key df ∧ g = filter (λ r, key r = k) df.
Proof.
  unfold groupby. rewrite list_lookup_fmap.
  destruct (sorted_keys (map key df) !! i) as [k'|] eqn:Hk; [|discriminate].
  simpl. intros [= <- <-]. split; [|reflexivity].
  apply elem_of_sorted_keys. apply list_elem_of_lookup. eauto.
Qed.

Lemma groupby_group_nonempty (key : Row → Z) (df : list Row) (i : nat)
    (k : Z) (g : list Row) :
  groupby key df !! i = Some (k, g) → g ≠ [].
Proof.
  intros H. apply groupby_lookup in H as [Hk ->].
  apply list_elem_of_fmap in Hk as (r & -> & Hr). intros Hnil.
  assert (r ∈ filter (λ r0, key r0 = key r) df)
    by (apply list_elem_of_filter; auto).
  rewrite Hnil in *. by apply not_elem_of_nil in H.
Qed.

(** Every row is in exactly one group. *)
Lemma groupby_total_length (key : Row → Z) (df : list Row) :
  sum_list_with (λ kg, length (snd kg)) (groupby key df) = length df.
Proof.
  unfold groupby.
  assert (Hsum : ∀ ks : list Z, NoDup ks → ∀ rows : list Row,
            (∀ r, r ∈ rows → key r ∈ ks) →
            sum_list_with (λ kg : Z * list Row, length (snd kg))
              (map (λ k, (k, filter (λ r, key r = k) rows)) ks)
            = length rows).
  { intros ks Hnd. induction rows as [|r rows IH]; intros Hin.
    - clear. induction ks as [|k ks IH]; simpl; [reflexivity|].
      by rewrite IH.
    - simpl. rewrite <- IH by (intros r' Hr'; apply Hin; by right).
      assert (Hr : key r ∈ ks) by (apply Hin; left).
      clear IH Hin. revert Hr. induction Hnd as [|k ks Hk Hnd IHk];
        intros Hr; [by apply not_elem_of_nil in Hr|].
      simpl. destruct (decide (key r = k)) as [Heq|Hne].
      + rewrite filter_cons_True by exact Heq. simpl.
        f_equal. f_equal. clear IHk Hr. subst k.
        induction ks as [|k' ks IH']; simpl; [reflexivity|].
        apply not_elem_of_cons in Hk as [Hne Hk].
        rewrite filter_cons_False by exact Hne.
        f_equal. apply IH'; [exact Hk|]. by apply NoDup_cons_1_2 in Hnd.
      + rewrite filter_cons_False by exact Hne.
        apply elem_of_cons in Hr as [Hr|Hr]; [congruence|].
        rewrite (IHk Hr). lia. }
  apply Hsum; [apply sorted_keys_NoDup|].
  intros r Hr. apply elem_of_sorted_keys. by apply list_elem_of_fmap_2.
Qed.

Lemma insert_row_elem (r x : Row) (rs : list Row) :
  x ∈ insert_row r rs ↔ x = r ∨ x ∈ rs.
Proof.
  induction rs as [|r' rs IH]; simpl.
  - rewrite list_elem_of_singleton, elem_of_nil. tauto.
  - destruct (Qle_bool (Test_Time r) (Test_Time r'));
      [by rewrite elem_of_cons|].
    rewrite !elem_of_cons, IH. tauto.
Qed.

Lemma insert_row_sorted (r : Row) (rs : list Row) :
  StronglySorted (λ a b, Test_Time a <= Test_Time b) rs →
  StronglySorted (λ a b, Test_Time a <= Test_Time b) (insert_row r rs).
Proof.
  induction 1 as [|r' rs Hs IH Hall]; simpl.
  - repeat constructor.
  - destruct (Qle_bool (Test_Time r) (Test_Time r')) eqn:Hle.
    + apply Qle_bool_iff in Hle. constructor; [by constructor|].
      constructor; [exact Hle|].
      eapply Forall_impl; [exact Hall|]. intros z Hz. simpl in Hz.
      by apply Qle_trans with (Test_Time r').
    + constructor; [exact IH|].
      apply Forall_forall. intros z Hz. apply insert_row_elem in Hz.
      destruct Hz as [->|Hz].
      * destruct (Qlt_le_dec (Test_Time r) (Test_Time r')) as [Hlt|Hge];
          [|exact Hge].
        apply Qlt_le_weak in Hlt. apply Qle_bool_iff in Hlt. congruence.
      * by apply (proj1 (Forall_forall _ _) Hall).
Qed.

(** [sort_values] orders the rows by time. *)
Lemma sort_values_sorted (df : list Row) :
  StronglySorted (λ a b, Test_Time a <= Test_Time b) (sort_values df).
Proof.
  unfold sort_values. induction df as [|r df IH]; simpl; [constructor|].
  by apply insert_row_sorted.
Qed.

Lemma filter_sorted (P : Row → Prop) `{∀ r, Decision (P r)}
    (R : Row → Row → Prop) (rows : list Row) :
  StronglySorted R rows → StronglySorted R (filter P rows).
Proof.
  induction 1 as [|r rows Hs IH Hall]; [constructor|].
  destruct (decide (P r)) as [Hr|Hr].
  - rewrite filter_cons_True by exact Hr. constructor; [exact IH|].
    apply Forall_forall. intros z Hz. apply list_elem_of_filter in Hz as [_ Hz].
    by apply (proj1 (Forall_forall _ _) Hall).
  - by rewrite filter_cons_False.
Qed.

Lemma sorted_times_non_decreasing (rows : list Row) :
  StronglySorted (λ a b, Test_Time a <= Test_Time b) rows →
  non_decreasing (map Test_Time rows).
Proof.
  induction 1 as [|r rows Hs IH Hall]; intros i a b Ha Hb; [discriminate|].
  destruct i as [|i]; simpl in Ha, Hb.
  - injection Ha as <-. apply list_lookup_fmap_Some in Hb as (r' & -> & Hr').
    apply (proj1 (Forall_forall _ _) Hall).
    apply list_elem_of_lookup. eauto.
  - by apply (IH i).
Qed.

(** ** The cycles of a battery *)

Lemma build_cycles_Forall2 (groups : list (Z * list Row)) :
  ∀ index cycles, build_cycles index groups = Some cycles →
    Forall2 built_from groups cycles
    ∧ map cycle_number cycles = seq index (length groups).
Proof.
  induction groups as [|[k g] groups IH]; intros index cycles Hrun.
  - injection Hrun as <-. split; [constructor | reflexivity].
  - simpl in Hrun.
    destruct (calc_Q (map Current g) (map Test_Time g) false) as [Qd|] eqn:HQd;
      [|discriminate].
    destruct (calc_Q (map Current g) (map Test_Time g) true) as [Qc|] eqn:HQc;
      [|discriminate].
    destruct (build_cycles (S index) groups) as [rest|] eqn:Hrest;
      [|discriminate].
    injection Hrun as <-. destruct (IH (S index) rest Hrest) as [Hall Hnum].
    split.
    + constructor; [|exact Hall]. unfold built_from. simpl. auto.
    + simpl. by rewrite Hnum.
Qed.

Lemma battery_cycles_unfold (battery_df : list Row) (cycles : list CycleData) :
  battery_cycles battery_df = Some cycles →
  ∃ normalised,
    organize_cycle_index (map Cycle_Index (sort_values battery_df))
    = Some normalised
    ∧ build_cycles 0
        (groupby Cycle_Index
           (zip_with set_Cycle_Index (sort_values battery_df) normalised))
      = Some cycles.
Proof.
  unfold battery_cycles.
  destruct (organize_cycle_index _) as [normalised|]; [|discriminate].
  intros H. exists normalised. auto.
Qed.

Lemma zip_with_set_Cycle_Index_sorted (rows : list Row) :
  StronglySorted (λ a b, Test_Time a <= Test_Time b) rows →
  ∀ idx, StronglySorted (λ a b, Test_Time a <= Test_Time b)
           (zip_with set_Cycle_Index rows idx).
Proof.
  induction 1 as [|r rows Hs IH Hall]; intros idx; [constructor|].
  destruct idx as [|c idx]; simpl; [constructor|].
  constructor; [apply IH|].
  apply Forall_forall. intros z Hz.
  apply list_elem_of_lookup in Hz as [i Hz].
  apply lookup_zip_with_Some in Hz as (r' & c' & -> & Hr' & _). simpl.
  apply (proj1 (Forall_forall _ _) Hall). apply list_elem_of_lookup. eauto.
Qed.

Lemma zip_with_set_Cycle_Index_length (rows : list Row) (idx : list Z) :
  length idx = length rows →
  length (zip_with set_Cycle_Index rows idx) = length rows
  ∧ map Cycle_Index (zip_with set_Cycle_Index rows idx) = idx.
Proof.
  revert idx. induction rows as [|r rows IH]; intros [|c idx] Hlen;
    try discriminate; [split; reflexivity|].
  simpl in *. destruct (IH idx ltac:(lia)) as [H1 H2].
  by rewrite H1, H2.
Qed.

(** The groups of the processed rows of a battery: none is empty and each is
    ordered by time. *)
Lemma battery_groups (battery_df : list Row) (normalised : list Z) :
  Forall (λ kg, snd kg ≠ [] ∧ non_decreasing (map Test_Time (snd kg)))
         (groupby Cycle_Index
            (zip_with set_Cycle_Index (sort_values battery_df) normalised)).
Proof.
  apply Forall_lookup. intros i [k g] Hkg. simpl. split.
  - exact (groupby_group_nonempty _ _ i k g Hkg).
  - apply groupby_lookup in Hkg as [_ ->].
    apply sorted_times_non_decreasing, filter_sorted.
    apply zip_with_set_Cycle_Index_sorted, sort_values_sorted.
Qed.

Lemma calc_Q_length (I t Qs : list Q) (is_charge : bool) :
  length I = length t → calc_Q I t is_charge = Some Qs →
  length Qs = length I.
Proof.
  intros Hlen Hrun.
  destruct (calc_Q_rec I t is_charge Hlen) as (Qs' & Hrun' & Hl & _).
  congruence.
Qed.

Lemma cycles_aligned (battery_df : list Row)
    (cycles : list CycleData) :
  battery_cycles battery_df = Some cycles →
  Forall aligned cycles
  ∧ map cycle_number cycles = seq 0 (length cycles).
Proof.
  intros Hrun.
  apply battery_cycles_unfold in Hrun as (normalised & _ & Hbuild).
  apply build_cycles_Forall2 in Hbuild as [Hall Hnum].
  pose proof (battery_groups battery_df normalised) as Hgroups.
  split; [clear Hnum | by rewrite Hnum, (Forall2_length _ _ _ Hall)].
  induction Hall as [|[k g] c groups cycles' Hc Hall IH]; [constructor|].
  apply Forall_cons in Hgroups as [[Hne _] Hgroups].
  constructor; [|by apply IH].
  destruct Hc as (HV & HI & Ht & HQc & HQd). simpl in *.
  assert (Hlen : length (current_in_A c) = length (time_in_s c))
    by (by rewrite HI, Ht, !length_map).
  unfold aligned. rewrite (calc_Q_length _ _ _ _ Hlen HQc),
    (calc_Q_length _ _ _ _ Hlen HQd).
  rewrite HV, HI, Ht, !length_map.
  repeat split; auto. destruct g; [congruence | simpl; lia].
Qed.

(** X8: every cycle that is built for a battery has five sample sequences
    of one and the same non-zero length, and the cycles are numbered
    0, 1, 2, ... in the order of their normalised index. *)
Theorem battery_cycles_aligned (battery_df : list Row)
    (cycles : list CycleData) :
  battery_cycles battery_df = Some cycles →
  Forall aligned cycles
  ∧ map cycle_number cycles = seq 0 (length cycles).
Proof. exact (cycles_aligned battery_df cycles). Qed.

Lemma battery_cycles_aligned_witness :
  Forall aligned fading_cycles
  ∧ map cycle_number fading_cycles = seq 0 (length fading_cycles).
Proof.
  apply (battery_cycles_aligned (fading_rows 2)). vm_compute. reflexivity.
Defined.

(** Python's [max] returns an element that no element exceeds. *)
Lemma py_max_spec (l : list Q) (m : Q) :
  py_max l = Some m → m ∈ l ∧ Forall (λ x, x <= m) l.
Proof.
  destruct l as [|x rest]; [discriminate|]. simpl. intros [= <-].
  assert (H : ∀ rest x,
            let m := fold_left (λ m y, if Qlt_bool m y then y else m) rest x in
            (m = x ∨ m ∈ rest) ∧ x <= m ∧ Forall (λ y, y <= m) rest).
  { clear. induction rest as [|y rest IH]; intros x; simpl.
    - split; [by left|]. split; [apply Qle_refl | constructor].
    - destruct (IH (if Qlt_bool x y then y else x)) as (Hin & Hle & Hall).
      destruct (Qlt_bool x y) eqn:E.
      + apply Qlt_bool_iff in E. split.
        * right. destruct Hin as [->|Hin]; [left | by right].
        * split; [lra|]. constructor; [exact Hle | exact Hall].
      + apply Qlt_bool_false_iff in E. split.
        * destruct Hin as [->|Hin]; [by left | right; by right].
        * split; [exact Hle|]. constructor; [lra | exact Hall]. }
  destruct (H rest x) as (Hin & Hle & Hall). split.
  - destruct Hin as [->|Hin]; [left | by right].
  - constructor; [exact Hle | exact Hall].
Qed.

Lemma cycles_monotone (battery_df : list Row)
    (cycles : list CycleData) :
  battery_cycles battery_df = Some cycles →
  Forall (λ c,
            non_decreasing (time_in_s c)
            ∧ non_decreasing (charge_capacity_in_Ah c)
            ∧ non_decreasing (discharge_capacity_in_Ah c)
            ∧ Forall (λ q, 0 <= q) (charge_capacity_in_Ah c)
            ∧ Forall (λ q, 0 <= q) (discharge_capacity_in_Ah c)
            ∧ peak c ∈ discharge_capacity_in_Ah c
            ∧ Forall (λ q, q <= peak c) (discharge_capacity_in_Ah c)
            ∧ 0 <= peak c) cycles.
Proof.
  intros Hrun. pose proof (cycles_aligned battery_df cycles Hrun)
    as [Haligned _].
  apply battery_cycles_unfold in Hrun as (normalised & _ & Hbuild).
  apply build_cycles_Forall2 in Hbuild as [Hall _].
  pose proof (battery_groups battery_df normalised) as Hgroups.
  induction Hall as [|[k g] c groups cycles' Hc Hall IH]; [constructor|].
  apply Forall_cons in Hgroups as [[_ Hsorted] Hgroups].
  apply Forall_cons in Haligned as [Hal Haligned].
  constructor; [|by apply IH].
  destruct Hc as (HV & HI & Ht & HQc & HQd). simpl in *.
  destruct Hal as (Hpos & _ & HlenI & _ & HlenQd).
  rewrite <- Ht in Hsorted.
  destruct (calc_Q_non_decreasing _ _ _ _ HlenI Hsorted HQc) as [Hc1 Hc2].
  destruct (calc_Q_non_decreasing _ _ _ _ HlenI Hsorted HQd) as [Hd1 Hd2].
  assert (Hpeak : ∃ m, py_max (discharge_capacity_in_Ah c) = Some m).
  { destruct (discharge_capacity_in_Ah c); [simpl in *; lia | simpl; eauto]. }
  destruct Hpeak as [m Hm]. pose proof (py_max_spec _ _ Hm) as [Hin Hmax].
  unfold peak. rewrite Hm. repeat split; auto.
  by apply (proj1 (Forall_forall _ _) Hd2).
Qed.

(** X9: in every cycle that is built for a battery the times never
    decrease, both capacity sequences are never negative and never
    decrease, and the peak discharge capacity is a non-negative sample
    of the discharge sequence that no sample exceeds. *)
Theorem battery_cycles_monotone (battery_df : list Row)
    (cycles : list CycleData) :
  battery_cycles battery_df = Some cycles →
  Forall (λ c,
            non_decreasing (time_in_s c)
            ∧ non_decreasing (charge_capacity_in_Ah c)
            ∧ non_decreasing (discharge_capacity_in_Ah c)
            ∧ Forall (λ q, 0 <= q) (charge_capacity_in_Ah c)
            ∧ Forall (λ q, 0 <= q) (discharge_capacity_in_Ah c)
            ∧ peak c ∈ discharge_capacity_in_Ah c
            ∧ Forall (λ q, q <= peak c) (discharge_capacity_in_Ah c)
            ∧ 0 <= peak c) cycles.
Proof. exact (cycles_monotone battery_df cycles). Qed.

Lemma battery_cycles_monotone_witness :
  Forall (λ c, 0 <= peak c) fading_cycles.
Proof.
  eapply Forall_impl;
    [apply (battery_cycles_monotone (fading_rows 2)); vm_compute; reflexivity|].
  intros c H. apply H.
Defined.

(** X10: no sample is lost or duplicated: the cycles of a battery hold as
    many samples altogether as the battery has rows. *)
Theorem battery_cycles_samples (battery_df : list Row)
    (cycles : list CycleData) :
  battery_cycles battery_df = Some cycles →
  sum_list_with (λ c, length (time_in_s c)) cycles = length battery_df.
Proof.
  intros Hrun.
  apply battery_cycles_unfold in Hrun as (normalised & Hnorm & Hbuild).
  apply build_cycles_Forall2 in Hbuild as [Hall _].
  apply organize_length in Hnorm. rewrite length_map in Hnorm.
  destruct (zip_with_set_Cycle_Index_length (sort_values battery_df)
              normalised Hnorm) as [Hlen _].
  rewrite <- (sort_values_length battery_df), <- Hlen.
  rewrite <- (groupby_total_length Cycle_Index).
  induction Hall as [|[k g] c groups cycles' Hc Hall IH]; [reflexivity|].
  simpl. destruct Hc as (_ & _ & -> & _). simpl.
  by rewrite length_map, IH.
Qed.

Lemma battery_cycles_samples_witness :
  sum_list_with (λ c, length (time_in_s c)) fading_cycles
  = length (fading_rows 2).
Proof.
  apply (battery_cycles_samples (fading_rows 2)). vm_compute. reflexivity.
Defined.

Lemma sorted_keys_normalise (l : list Z) :
  ∀ current prev, ∃ zs,
    sorted_keys (current :: normalise current prev l) = current :: zs
    ∧ length zs = changes prev l.
Proof.
  induction l as [|y l IH]; intros current prev.
  - exists []. split; reflexivity.
  - simpl normalise. simpl changes.
    set (c := if bool_decide (y ≠ prev) then (current + 1)%Z else current).
    destruct (IH c y) as (zs & Hzs & Hlen).
    change (sorted_keys (current :: c :: normalise c y l))
      with (insert_key current (sorted_keys (c :: normalise c y l))).
    rewrite Hzs. simpl. unfold c. case_bool_decide as Hd.
    + assert ((current <? current + 1)%Z = true) as -> by (apply Z.ltb_lt; lia).
      exists ((current + 1)%Z :: zs). split; [reflexivity|]. simpl. lia.
    + rewrite Z.ltb_irrefl, Z.eqb_refl.
      exists zs. split; [reflexivity|]. lia.
Qed.

Lemma cycles_count (battery_df : list Row)
    (cycles : list CycleData) :
  battery_cycles battery_df = Some cycles →
  ∃ first rest,
    map Cycle_Index (sort_values battery_df) = first :: rest
    ∧ length cycles = S (changes first rest).
Proof.
  intros Hrun.
  apply battery_cycles_unfold in Hrun as (normalised & Hnorm & Hbuild).
  apply build_cycles_Forall2 in Hbuild as [Hall _].
  apply Forall2_length in Hall. rewrite <- Hall.
  pose proof (organize_length _ _ Hnorm) as Hlen. rewrite length_map in Hlen.
  destruct (map Cycle_Index (sort_values battery_df)) as [|first rest] eqn:Hraw;
    [discriminate|].
  exists first, rest. split; [reflexivity|].
  rewrite organize_cycle_index_normalise in Hnorm. injection Hnorm as <-.
  unfold groupby. rewrite length_map.
  destruct (zip_with_set_Cycle_Index_length (sort_values battery_df)
              (first :: normalise first first rest) Hlen) as [_ ->].
  destruct (sorted_keys_normalise rest first first) as (zs & -> & Hzs).
  simpl. by rewrite Hzs.
Qed.



(** * Further properties of the filter and the driver *)

(** ** Batteries that the filter always drops *)

Lemma zero_ths_keeps_nothing (cycles : list CycleData) (Qd_med : list Q) :
  smooth (peaks cycles) = Ok Qd_med →
  ths (peaks cycles) Qd_med == 0 →
  clean_loop cycles (should_keep (peaks cycles) Qd_med) (peaks cycles)
  = Some ([], 0%nat).
Proof.
  intros Hsmooth Hths.
  destruct (clean_loop_kept cycles Qd_med Hsmooth) as (Hrun & _).
  simpl in Hrun.
  assert (Hnone : kept_positions (should_keep (peaks cycles) Qd_med)
                    (peaks cycles) 0 (length cycles) = []).
  { apply elem_of_nil_inv. intros i Hi.
    apply elem_of_kept_positions in Hi as [_ Hi].
    apply keeps_should_keep in Hi as (q & m & _ & _ & Hdev & _).
    pose proof (Qabs_nonneg (q - m)) as Hpos.
    rewrite Hths in Hdev. lra. }
  by rewrite Hnone in Hrun.
Qed.

Lemma sort_values_elem (r : Row) (df : list Row) :
  r ∈ sort_values df ↔ r ∈ df.
Proof.
  unfold sort_values. induction df as [|r' df IH]; simpl; [reflexivity|].
  rewrite insert_row_elem, elem_of_cons, IH. reflexivity.
Qed.

Lemma changes_constant (k : Z) (l : list Z) :
  Forall (λ x, x = k) l → changes k l = 0%nat.
Proof.
  induction 1 as [|x l -> _ IH]; simpl; [reflexivity|].
  rewrite bool_decide_eq_false_2 by (intros H; by apply H). exact IH.
Qed.

Section DropProperties.

Context {St : Type}.
Variable check_processed_file : string → St → bool.
Variable dump_single_file : BatteryData → St → St.

Local Abbreviation process_battery' :=
  (process_battery check_processed_file dump_single_file).

Lemma constant_peaks_dropped (silent : bool) (battery_id : Z)
    (battery_df : list Row) (acc : nat * nat) (w : World St)
    (cycles : list CycleData) (c : Q) :
  check_processed_file (cell_key battery_id) (store w) = false →
  battery_cycles battery_df = Some cycles → cycles ≠ [] →
  Forall (λ cy, peak cy = c) cycles →
  length cycles ≠ 2%nat → length cycles ≠ 4%nat →
  process_battery' silent (battery_id, battery_df) acc w
  = (Ok acc,
     mkWorld (store w)
       (trace w
        ++ CheckProcessed (cell_key battery_id) false
        :: note silent ("Processing battery Battery_" +:+ str_Z battery_id)
        ++ [Print ("No clean cycles found for battery Battery_"
                   +:+ str_Z battery_id)])).
Proof.
  intros Hskip Hcycles Hne Hconst H2 H4.
  assert (Hc : 0 <= c).
  { pose proof (cycles_monotone battery_df cycles Hcycles) as Hall.
    destruct cycles as [|cy cycles']; [congruence|].
    apply Forall_cons in Hall as [(_ & _ & _ & _ & _ & _ & _ & Hpos) _].
    apply Forall_cons in Hconst as [<- _]. exact Hpos. }
  destruct (constant_peaks_zero_threshold cycles c Hc Hconst)
    as (Qd_med & Hsmooth & Hths).
  { intros [H|[H|H]]; auto. apply nil_length_inv in H. contradiction. }
  apply (process_battery_no_clean _ _ silent battery_id battery_df acc w
           cycles Qd_med 0); auto.
  by apply zero_ths_keeps_nothing.
Qed.


(** X13: a battery whose rows all carry the same raw cycle index has a
    single cycle and is never dumped. *)
Theorem single_cycle_battery_dropped (silent : bool) (battery_id : Z)
    (battery_df : list Row) (acc : nat * nat) (w : World St) (k : Z) :
  check_processed_file (cell_key battery_id) (store w) = false →
  battery_df ≠ [] → Forall (λ r, Cycle_Index r = k) battery_df →
  process_battery' silent (battery_id, battery_df) acc w
  = (Ok acc,
     mkWorld (store w)
       (trace w
        ++ CheckProcessed (cell_key battery_id) false
        :: note silent ("Processing battery Battery_" +:+ str_Z battery_id)
        ++ [Print ("No clean cycles found for battery Battery_"
                   +:+ str_Z battery_id)])).
Proof.
  intros Hskip Hne Hsame.
  destruct (battery_cycles_total battery_df Hne) as (cycles & Hcycles & Hcne).
  destruct (cycles_count battery_df cycles Hcycles)
    as (first & rest & Hraw & Hcount).
  assert (Hall : Forall (λ x, x = k) (first :: rest)).
  { rewrite <- Hraw. apply Forall_fmap, Forall_forall. intros r Hr.
    apply (proj1 (sort_values_elem _ _)) in Hr.
    exact (proj1 (Forall_forall _ _) Hsame r Hr). }
  apply Forall_cons in Hall as [-> Hall].
  rewrite (changes_constant k rest Hall) in Hcount.
  destruct cycles as [|cy [|cy' cycles']]; try discriminate.
  apply (constant_peaks_dropped silent battery_id battery_df acc w
           [cy] (peak cy)); auto.
Qed.

End DropProperties.


Lemma single_cycle_battery_dropped_witness :
  fst (process_battery pkl_exists write_pkl true (9%Z, cycle_rows 9 1 2)
         (0%nat, 0%nat) (mkWorld [] []))
  = Ok (0%nat, 0%nat).
Proof.
  rewrite (single_cycle_battery_dropped pkl_exists write_pkl true 9
             (cycle_rows 9 1 2) (0%nat, 0%nat) (mkWorld [] []) 1);
    [ reflexivity | reflexivity | discriminate | repeat constructor ].
Defined.

(** ** The record of a battery *)

Lemma aligned_set_cycle_number (c : CycleData) (n : nat) :
  aligned c → aligned (set_cycle_number c n).
Proof. intros H. exact H. Qed.

Lemma inject_Z_of_nat_S (n : nat) :
  inject_Z (Z.of_nat (S n)) == inject_Z (Z.of_nat n) + 1.
Proof. rewrite Nat2Z.inj_succ, <- Z.add_1_r, inject_Z_plus. reflexivity. Qed.

Lemma fold_left_Qplus_gt (b : Q) (l : list Q) :
  Forall (λ x, b < x) l → l ≠ [] →
  ∀ a, a + inject_Z (Z.of_nat (length l)) * b < fold_left Qplus l a.
Proof.
  induction 1 as [|x l Hx Hall IH]; intros Hne a; [congruence|].
  simpl fold_left. change (length (x :: l)) with (S (length l)).
  rewrite inject_Z_of_nat_S.
  destruct l as [|y l'].
  - cbn [fold_left length]. change (inject_Z (Z.of_nat 0)) with 0. lra.
  - specialize (IH ltac:(discriminate) (a + x)). lra.
Qed.

(** The mean of a non-empty list exceeds every strict lower bound of its
    elements. *)
Lemma mean_gt (b : Q) (l : list Q) :
  Forall (λ x, b < x) l → l ≠ [] → b < mean l.
Proof.
  intros Hall Hne. unfold mean.
  assert (Hn : 0 < inject_Z (Z.of_nat (length l))).
  { destruct l as [|x l]; [congruence|].
    change (length (x :: l)) with (S (length l)). rewrite inject_Z_of_nat_S.
    assert (0 <= inject_Z (Z.of_nat (length l)))
      by (change 0 with (inject_Z 0); rewrite <- Zle_Qle; lia).
    lra. }
  apply Qlt_shift_div_l; [exact Hn|].
  pose proof (fold_left_Qplus_gt b l Hall Hne 0). lra.
Qed.

Lemma mapM_py_max_peaks (cycles : list CycleData) (caps : list Q) :
  mapM (λ c, py_max (discharge_capacity_in_Ah c)) cycles = Some caps →
  caps = map peak cycles.
Proof.
  intros H. apply mapM_Some in H.
  induction H as [|c m cycles caps Hm _ IH]; [reflexivity|].
  simpl. unfold peak at 1. by rewrite Hm, IH.
Qed.

(** The record that the pure part of the loop body builds is well formed. *)
Lemma battery_result_well_formed (battery_id : Z) (battery_df : list Row)
    (b : BatteryData) :
  battery_result battery_id battery_df = Ok (inr b) →
  well_formed_record b ∧ cell_id b = cell_key battery_id.
Proof.
  unfold battery_result.
  destruct (battery_cycles battery_df) as [cycles|] eqn:Hcycles;
    [|discriminate].
  destruct (length (peaks cycles) =? 0)%nat; [discriminate|].
  destruct (smooth (peaks cycles)) as [Qd_med|] eqn:Hsmooth; [|discriminate].
  destruct (clean_loop cycles _ _) as [[clean n]|] eqn:Hclean; [|discriminate].
  destruct (length clean =? 0)%nat eqn:Hlen; [discriminate|].
  destruct (mapM _ (take 5 clean)) as [caps|] eqn:Hcaps; [|discriminate].
  intros [= <-]. split; [|reflexivity].
  apply Nat.eqb_neq in Hlen.
  assert (Hne : clean ≠ []) by (intros ->; by apply Hlen).
  destruct (clean_loop_kept cycles Qd_med Hsmooth) as (Hrun & Hl & Hnum & Hlook).
  simpl in Hrun, Hl, Hnum, Hlook. rewrite Hclean in Hrun.
  injection Hrun as Hcl Hn.
  set (kept := kept_positions (should_keep (peaks cycles) Qd_med)
                 (peaks cycles) 0 (length cycles)) in *.
  pose proof (cycles_aligned battery_df cycles Hcycles) as [Hal _].
  assert (Hgood : Forall (λ c, aligned c ∧ 1 # 10 < peak c) clean).
  { rewrite Hcl. apply Forall_lookup. intros j x Hx.
    destruct (lookup_lt_is_Some_2 kept j) as [i Hi].
    { rewrite <- Hl. by apply lookup_lt_Some in Hx. }
    destruct (Hlook j i Hi) as (c & Hc & Hr).
    assert (x = set_cycle_number c (S j)) as -> by congruence.
    split.
    - apply aligned_set_cycle_number.
      by apply (Forall_lookup_1 _ _ _ _ Hal Hc).
    - assert (Hin : i ∈ kept) by (apply list_elem_of_lookup; eauto).
      apply elem_of_kept_positions in Hin as [_ Hin].
      apply keeps_should_keep in Hin as (q & m & Hq & _ & _ & Hfloor).
      unfold peaks in Hq. rewrite list_lookup_fmap, Hc in Hq.
      injection Hq as <-. exact Hfloor. }
  apply mapM_py_max_peaks in Hcaps. subst caps.
  assert (Htake : take 5 clean ≠ []) by (destruct clean; [congruence | discriminate]).
  assert (Hcapsne : map peak (take 5 clean) ≠ [])
    by (intros H; by apply fmap_nil_inv in H).
  unfold well_formed_record. simpl.
  split; [by exists battery_id|]. split; [exact Hne|].
  split; [by rewrite Hcl, Hnum, Hl|]. split; [exact Hgood|].
  assert (HC : match map peak (take 5 clean) with
               | [] => 1
               | _ => mean (map peak (take 5 clean))
               end = mean (map peak (take 5 clean)))
    by (destruct (map peak (take 5 clean)); [congruence | reflexivity]).
  rewrite HC. split; [reflexivity|]. split; [|auto].
  apply mean_gt; [|exact Hcapsne].
  apply Forall_fmap. apply Forall_take.
  eapply Forall_impl; [exact Hgood|]. intros c [_ Hc]. exact Hc.
Qed.

Section RecordProperties.

Context {St : Type}.
Variable check_processed_file : string → St → bool.
Variable dump_single_file : BatteryData → St → St.

Local Abbreviation process_battery' :=
  (process_battery check_processed_file dump_single_file).
Local Abbreviation process_file' :=
  (process_file check_processed_file dump_single_file).
Local Abbreviation process' :=
  (process check_processed_file dump_single_file).

(** The loop body, as the skip check followed by the pure part. *)
Lemma process_battery_eq (silent : bool) (battery_id : Z)
    (battery_df : list Row) (acc : nat * nat) (w : World St) :
  process_battery' silent (battery_id, battery_df) acc w
  = if check_processed_file (cell_key battery_id) (store w) then
      (Ok (fst acc, S (snd acc)),
       mkWorld (store w)
               (trace w ++ [CheckProcessed (cell_key battery_id) true]))
    else
      let pre := CheckProcessed (cell_key battery_id) false
                 :: note silent ("Processing battery Battery_"
                                 +:+ str_Z battery_id) in
      match battery_result battery_id battery_df with
      | Raise e => (Raise e, mkWorld (store w) (trace w ++ pre))
      | Ok (inl line) =>
          (Ok acc, mkWorld (store w) (trace w ++ pre ++ [Print line]))
      | Ok (inr b) =>
          (Ok (S (fst acc), snd acc),
           mkWorld (dump_single_file b (store w))
             (trace w ++ pre ++ Dump b
              :: (if silent then []
                  else [TqdmWrite ("File: " +:+ cell_id b
                                   +:+ " dumped to pkl file")])))
      end.
Proof.
  unfold process_battery, battery_result, bind, check, of_option, of_result,
    when, print, emit, dump, ret, raise.
  fold (cell_key battery_id).
  destruct (check_processed_file (cell_key battery_id) (store w));
    [reflexivity|].
  destruct silent; cbn [negb note];
    (destruct (battery_cycles battery_df) as [cycles|];
       [|cbn; rewrite <- ?app_assoc; reflexivity];
     destruct (length (peaks cycles) =? 0)%nat;
       [cbn; rewrite <- ?app_assoc; reflexivity|];
     destruct (smooth (peaks cycles)) as [Qd_med|e];
       [|cbn; rewrite <- ?app_assoc; reflexivity];
     destruct (clean_loop cycles _ _) as [[clean_cycles n]|];
       [|cbn; rewrite <- ?app_assoc; reflexivity];
     destruct (length clean_cycles =? 0)%nat;
       [cbn; rewrite <- ?app_assoc; reflexivity|];
     destruct (mapM _ (take 5 clean_cycles)) as [caps|];
       cbn; rewrite <- ?app_assoc; reflexivity).
Qed.

Lemma appends_bind {A B : Type} (P : event → Prop) (m : M St A)
    (k : A → M St B) :
  appends P m → (∀ a, appends P (k a)) → appends P (bind m k).
Proof.
  intros Hm Hk w. unfold bind. destruct (Hm w) as (new1 & Hw1 & HP1).
  destruct (m w) as [[a|e] w1]; simpl in *.
  - destruct (Hk a w1) as (new2 & Hw2 & HP2).
    exists (new1 ++ new2). rewrite Hw2, Hw1, app_assoc. split; [reflexivity|].
    by apply Forall_app.
  - exists new1. auto.
Qed.

Lemma appends_for_each {A B : Type} (P : event → Prop)
    (body : A → B → M St B) (l : list A) :
  (∀ a acc, appends P (body a acc)) → ∀ acc, appends P (for_each l body acc).
Proof.
  intros Hbody. induction l as [|a l IH]; intros acc.
  - intros w. exists []. simpl. by rewrite app_nil_r.
  - simpl. apply appends_bind; auto.
Qed.

Lemma appends_console {A : Type} (P : event → Prop) (b : bool)
    (line : string) (k : M St A) :
  P (Print line) → appends P k → appends P (bind (when b (print line)) (λ _, k)).
Proof.
  intros HP Hk. apply appends_bind; [|auto].
  intros w. destruct b; simpl.
  - exists [Print line]. split; [reflexivity | by constructor].
  - exists []. by rewrite app_nil_r.
Qed.

Lemma process_battery_well_formed (silent : bool) (group : Z * list Row)
    (acc : nat * nat) :
  appends dumps_well_formed (process_battery' silent group acc).
Proof.
  intros w. destruct group as [battery_id battery_df].
  rewrite process_battery_eq.
  destruct (check_processed_file _ _).
  - eexists. split; [reflexivity|]. repeat constructor.
  - destruct (battery_result battery_id battery_df) as [[line|b]|e] eqn:Hres;
      simpl.
    + eexists. split; [reflexivity|].
      destruct silent; simpl; repeat constructor.
    + apply battery_result_well_formed in Hres as [Hwf _].
      eexists. split; [reflexivity|].
      destruct silent; simpl; repeat (constructor; try exact Hwf; try exact I).
    + eexists. split; [reflexivity|].
      destruct silent; simpl; repeat constructor.
Qed.

(** X14: every record that a run of [process] hands to the dump, also in a
    run that ends with an exception, has a key of the form
    [CSV_Battery_<id>], at least one cycle, cycle numbers 1, 2, ..., K,
    aligned sample sequences and a peak above 0.1 in every cycle, and as
    nominal capacity the mean of the peaks of its first five (or fewer)
    cycles, which is above 0.1; the voltage limits are 4.2 and 2.7 and the
    state-of-charge interval is [0, 1]. *)
Theorem process_dumps_well_formed (silent : bool) (raw_files : list csv_file)
    (w : World St) :
  ∃ new,
    trace (snd (process' silent raw_files w)) = trace w ++ new
    ∧ Forall dumps_well_formed new.
Proof.
  revert w. change (appends dumps_well_formed (process' silent raw_files)).
  unfold process. destruct raw_files as [|f rest].
  - apply (appends_console _ true); [exact I|].
    intros w. exists []. by rewrite app_nil_r.
  - apply appends_console; [exact I|].
    apply appends_for_each. intros f' acc. unfold process_file.
    apply appends_console; [exact I|].
    destruct (read_csv f').
    + apply appends_for_each. apply process_battery_well_formed.
    + apply (appends_console _ true); [exact I|].
      intros w. exists []. by rewrite app_nil_r.
Qed.
End RecordProperties.

(** ** Runs of the driver *)

Lemma sum_list_with_one {A : Type} (l : list A) :
  sum_list_with (λ _, 1%nat) l = length l.
Proof. induction l as [|a l IH]; simpl; lia. Qed.

Lemma actions_app (tr1 tr2 : list event) :
  actions (tr1 ++ tr2) = actions tr1 ++ actions tr2.
Proof. unfold actions. apply List.filter_app. Qed.

Lemma actions_note (silent : bool) (line : string) :
  actions (note silent line) = [].
Proof. by destruct silent. Qed.

Section RunProperties.

Context {St : Type}.
Variable check_processed_file : string → St → bool.
Variable dump_single_file : BatteryData → St → St.

Local Abbreviation process_battery' :=
  (process_battery check_processed_file dump_single_file).
Local Abbreviation process_file' :=
  (process_file check_processed_file dump_single_file).
Local Abbreviation process' :=
  (process check_processed_file dump_single_file).
Local Abbreviation agree' := (agree (St:=St)).

Lemma agree_bind {A B : Type} (m1 m2 : M St A) (k1 k2 : A → M St B) :
  agree' m1 m2 → (∀ a, agree' (k1 a) (k2 a)) → agree' (bind m1 k1) (bind m2 k2).
Proof.
  intros Hm Hk w1 w2 Hst Hact. unfold bind.
  destruct (Hm w1 w2 Hst Hact) as (Hr & Hs & Ha).
  destruct (m1 w1) as [[a1|e1] w1'], (m2 w2) as [[a2|e2] w2'];
    simpl in *; simplify_eq; auto.
  by apply Hk.
Qed.

Lemma agree_for_each {A B : Type} (body1 body2 : A → B → M St B)
    (l : list A) :
  (∀ a acc, agree' (body1 a acc) (body2 a acc)) →
  ∀ acc, agree' (for_each l body1 acc) (for_each l body2 acc).
Proof.
  intros Hbody. induction l as [|a l IH]; intros acc.
  - intros w1 w2 Hst Hact. simpl. auto.
  - simpl. apply agree_bind; auto.
Qed.

(** Console output on either side changes nothing. *)
Lemma agree_console {A : Type} (b1 b2 : bool) (line1 line2 : string)
    (k1 k2 : M St A) :
  agree' k1 k2 →
  agree' (bind (when b1 (print line1)) (λ _, k1))
         (bind (when b2 (print line2)) (λ _, k2)).
Proof.
  intros Hk. apply agree_bind; [|auto].
  intros w1 w2 Hst Hact.
  destruct b1, b2; simpl; rewrite ?actions_app; simpl;
    rewrite ?app_nil_r; auto.
Qed.

Lemma agree_process_battery (silent1 silent2 : bool) (group : Z * list Row)
    (acc : nat * nat) :
  agree' (process_battery' silent1 group acc)
         (process_battery' silent2 group acc).
Proof.
  intros w1 w2 Hst Hact. destruct group as [battery_id battery_df].
  rewrite !process_battery_eq. rewrite <- Hst.
  destruct (check_processed_file _ _).
  - simpl. rewrite !actions_app, Hact. auto.
  - destruct (battery_result battery_id battery_df) as [[line|b]|e]; simpl;
      rewrite ?Hst, ?actions_app, ?Hact; simpl;
      rewrite ?actions_app, ?actions_note; simpl;
      repeat split; try reflexivity.
    by destruct silent1, silent2.
Qed.

Lemma agree_process_file (silent1 silent2 : bool) (f : csv_file)
    (acc : nat * nat) :
  agree' (process_file' silent1 f acc) (process_file' silent2 f acc).
Proof.
  unfold process_file. apply agree_console.
  destruct (read_csv f).
  - apply agree_for_each. intros g acc'. apply agree_process_battery.
  - apply (agree_console true true).
    intros w1 w2 Hst Hact. simpl. auto.
Qed.

(** X15: the [silent] flag only changes the console output: with and
    without it a run returns the same counters or raises the same exception,
    leaves the same store, and performs the same skip checks and dumps in the
    same order. *)
Theorem silent_only_changes_console (raw_files : list csv_file)
    (w : World St) :
  fst (process' true raw_files w) = fst (process' false raw_files w)
  ∧ store (snd (process' true raw_files w))
    = store (snd (process' false raw_files w))
  ∧ actions (trace (snd (process' true raw_files w)))
    = actions (trace (snd (process' false raw_files w))).
Proof.
  assert (H : agree' (process' true raw_files) (process' false raw_files)).
  { unfold process. destruct raw_files as [|f rest].
    - apply (agree_console true true). intros w1 w2 Hst Hact. simpl. auto.
    - apply agree_console. apply agree_for_each.
      intros f' acc. apply agree_process_file. }
  by apply H.
Qed.

(** *** The exceptions of a run *)


Lemma console_then {A : Type} (b : bool) (line : string) (k : M St A)
    (w : World St) :
  ∃ w0, store w0 = store w
    ∧ bind (when b (print line)) (λ _, k) w = k w0.
Proof.
  destruct b.
  - eexists. split; [|reflexivity]. reflexivity.
  - exists w. split; reflexivity.
Qed.



(** *** The counters of a run *)

Lemma process_battery_count_step (silent : bool) (group : Z * list Row)
    (acc acc' : nat * nat) (w : World St) :
  fst (process_battery' silent group acc w) = Ok acc' →
  (fst acc ≤ fst acc')%nat ∧ (snd acc ≤ snd acc')%nat
  ∧ (fst acc' + snd acc' ≤ fst acc + snd acc + 1)%nat.
Proof.
  destruct group as [battery_id battery_df]. rewrite process_battery_eq.
  destruct (check_processed_file _ _).
  - intros [= <-]. simpl. lia.
  - destruct (battery_result battery_id battery_df) as [[line|b]|e]; simpl;
      [intros [= <-]; lia | intros [= <-]; simpl; lia | discriminate].
Qed.

Lemma for_each_count {A : Type} (body : A → nat * nat → M St (nat * nat))
    (cost : A → nat) (l : list A) :
  (∀ a acc acc' w, fst (body a acc w) = Ok acc' →
     (fst acc ≤ fst acc')%nat ∧ (snd acc ≤ snd acc')%nat
     ∧ (fst acc' + snd acc' ≤ fst acc + snd acc + cost a)%nat) →
  ∀ acc acc' w, fst (for_each l body acc w) = Ok acc' →
    (fst acc ≤ fst acc')%nat ∧ (snd acc ≤ snd acc')%nat
    ∧ (fst acc' + snd acc' ≤ fst acc + snd acc + sum_list_with cost l)%nat.
Proof.
  intros Hbody. induction l as [|a l IH]; intros acc acc' w Hrun.
  - injection Hrun as <-. simpl. lia.
  - simpl in Hrun. unfold bind in Hrun.
    destruct (body a acc w) as [[acc1|e1] w1] eqn:Hstep; [|discriminate].
    pose proof (Hbody a acc acc1 w) as H1. rewrite Hstep in H1.
    specialize (H1 eq_refl). specialize (IH acc1 acc' w1 Hrun). simpl. lia.
Qed.

Lemma process_file_count (silent : bool) (f : csv_file)
    (acc acc' : nat * nat) (w : World St) :
  fst (process_file' silent f acc w) = Ok acc' →
  (fst acc ≤ fst acc')%nat ∧ (snd acc ≤ snd acc')%nat
  ∧ (fst acc' + snd acc' ≤ fst acc + snd acc + groups_of f)%nat.
Proof.
  unfold process_file, groups_of. destruct (read_csv f) as [df|e].
  - destruct (console_then (negb silent) ("Processing " +:+ name f)
                (for_each (groupby Battery_ID df) (process_battery' silent) acc)
                w) as (w0 & _ & ->).
    intros Hrun.
    pose proof (for_each_count (process_battery' silent) (λ _, 1%nat)
                  (groupby Battery_ID df)
                  (λ g a a' w', process_battery_count_step silent g a a' w')
                  acc acc' w0 Hrun) as H.
    rewrite sum_list_with_one in H. lia.
  - destruct (console_then (negb silent) ("Processing " +:+ name f)
                (bind (print ("Error reading " +:+ path f +:+ ": "
                              +:+ str_exn e))
                      (λ _, ret acc)) w) as (w0 & _ & ->).
    intros [= <-]. lia.
Qed.

(** X17: every battery group is counted at most once: when [process]
    returns, the two counters together do not exceed the number of battery
    groups of the files that could be read. *)
Theorem process_counts_bounded (silent : bool) (raw_files : list csv_file)
    (w w' : World St) (p s : nat) :
  process' silent raw_files w = (Ok (p, s), w') →
  (p + s ≤ total_groups raw_files)%nat.
Proof.
  intros Hrun. apply (f_equal fst) in Hrun. simpl in Hrun.
  unfold process in Hrun. destruct raw_files as [|f0 rest].
  - injection Hrun as <- <-. simpl. lia.
  - set (files := f0 :: rest) in *.
    destruct (console_then (negb silent)
                ("Found " +:+ str_nat (length files)
                 +:+ " CSV files to process")
                (for_each files (process_file' silent) (0%nat, 0%nat)) w)
      as (w0 & _ & Heq).
    rewrite Heq in Hrun.
    pose proof (for_each_count (process_file' silent) groups_of files
                  (process_file_count silent) (0%nat, 0%nat) (p, s) w0 Hrun)
      as H.
    destruct H as (_ & _ & H). cbn [fst snd] in H.
    unfold total_groups. fold files. lia.
Qed.

End RunProperties.


Lemma process_counts_bounded_witness :
  (1 + 1 ≤ total_groups [unreadable_file; mixed_file])%nat.
Proof.
  apply (process_counts_bounded pkl_exists write_pkl true
           [unreadable_file; mixed_file] (mkWorld ["CSV_Battery_3"] [])
           (snd (process pkl_exists write_pkl true
                   [unreadable_file; mixed_file]
                   (mkWorld ["CSV_Battery_3"] [])))).
  rewrite (surjective_pairing (process _ _ _ _ _)) at 1.
  apply (f_equal2 pair); [vm_compute|]; reflexivity.
Defined.

(** ** Skip and resume *)

Lemma dumped_keys_app (tr1 tr2 : list event) :
  dumped_keys (tr1 ++ tr2) = dumped_keys tr1 ++ dumped_keys tr2.
Proof. unfold dumped_keys. apply omap_app. Qed.

Lemma dumped_keys_note (silent : bool) (line : string) :
  dumped_keys (note silent line) = [].
Proof. by destruct silent. Qed.

Section Resume.

Context {St : Type}.
Variable check_processed_file : string → St → bool.
Variable dump_single_file : BatteryData → St → St.

(** What the driver needs from the two collaborators to resume: a record
    that has been dumped is found by the skip check, and a dump does not make
    the skip check lose a key. *)
Hypothesis dump_visible :
  ∀ b st, check_processed_file (cell_id b) (dump_single_file b st) = true.
Hypothesis dump_keeps :
  ∀ b k st, check_processed_file k st = true →
    check_processed_file k (dump_single_file b st) = true.

Local Abbreviation process_battery' :=
  (process_battery check_processed_file dump_single_file).
Local Abbreviation process_file' :=
  (process_file check_processed_file dump_single_file).
Local Abbreviation process' :=
  (process check_processed_file dump_single_file).
Local Abbreviation replay' := (replay dump_single_file).
Local Abbreviation extends' := (extends check_processed_file).
Local Abbreviation fresh' :=
  (fresh_dumps check_processed_file dump_single_file).

Lemma extends_refl (st : St) : extends' st st.
Proof. intros k H. exact H. Qed.

Lemma extends_trans (st1 st2 st3 : St) :
  extends' st1 st2 → extends' st2 st3 → extends' st1 st3.
Proof. intros H1 H2 k H. apply H2, H1, H. Qed.

Lemma replay_extends (new : list event) : ∀ st, extends' st (replay' new st).
Proof.
  induction new as [|ev new IH]; intros st; [apply extends_refl|].
  unfold replay. simpl. eapply extends_trans; [|apply IH].
  destruct ev; try apply extends_refl. intros k H. by apply dump_keeps.
Qed.

Lemma replay_dumped (new : list event) (k : string) :
  ∀ st, k ∈ dumped_keys new → check_processed_file k (replay' new st) = true.
Proof.
  induction new as [|ev new IH]; intros st Hk;
    [by apply not_elem_of_nil in Hk|].
  unfold replay. simpl.
  destruct ev as [line|line|key answer|b]; simpl in Hk; try (by apply IH).
  apply elem_of_cons in Hk as [->|Hk]; [|by apply IH].
  apply replay_extends. apply dump_visible.
Qed.

Lemma fresh_bind {A B : Type} (m : M St A) (k : A → M St B) :
  fresh' m → (∀ a, fresh' (k a)) → fresh' (bind m k).
Proof.
  intros Hm Hk w. unfold bind. destruct (Hm w) as (new1 & Hw1 & Hnd1 & Hf1).
  destruct (m w) as [[a|e] w1]; simpl in *; [|eauto].
  destruct (Hk a w1) as (new2 & Hw2 & Hnd2 & Hf2). subst w1. simpl in *.
  exists (new1 ++ new2). split; [|split].
  - rewrite Hw2. unfold replay. by rewrite fold_left_app, app_assoc.
  - rewrite dumped_keys_app. apply NoDup_app. split; [exact Hnd1|].
    split; [|exact Hnd2]. intros key Hin1 Hin2.
    pose proof (replay_dumped new1 key (store w) Hin1) as Htrue.
    rewrite (Hf2 key Hin2) in Htrue. discriminate.
  - intros key Hin. rewrite dumped_keys_app in Hin.
    apply elem_of_app in Hin as [Hin|Hin]; [by apply Hf1|].
    destruct (check_processed_file key (store w)) eqn:E; [|reflexivity].
    apply (replay_extends new1) in E. rewrite (Hf2 key Hin) in E.
    discriminate.
Qed.

Lemma fresh_silent {A : Type} (r : result A) (tr : list event) :
  dumped_keys tr = [] → replay' tr = (λ st, st) →
  fresh' (λ w, (r, mkWorld (store w) (trace w ++ tr))).
Proof.
  intros Hk Hr w. exists tr. simpl. rewrite Hr, Hk. split; [reflexivity|].
  split; [constructor|]. intros k Hin. by apply not_elem_of_nil in Hin.
Qed.

Lemma fresh_ret {A : Type} (a : A) : fresh' (ret a).
Proof.
  intros w. exists []. unfold ret. simpl. rewrite app_nil_r.
  split; [by destruct w|]. split; [constructor|].
  intros k Hin. by apply not_elem_of_nil in Hin.
Qed.

Lemma fresh_console {A : Type} (b : bool) (line : string) (k : M St A) :
  fresh' k → fresh' (bind (when b (print line)) (λ _, k)).
Proof.
  intros Hk. apply fresh_bind; [|auto]. destruct b; [|apply fresh_ret].
  intros w. exists [Print line]. simpl. split; [reflexivity|].
  split; [constructor|]. intros key Hin. by apply not_elem_of_nil in Hin.
Qed.

Lemma fresh_for_each {A B : Type} (body : A → B → M St B) (l : list A) :
  (∀ a acc, fresh' (body a acc)) → ∀ acc, fresh' (for_each l body acc).
Proof.
  intros Hbody. induction l as [|a l IH]; intros acc; [apply fresh_ret|].
  simpl. apply fresh_bind; auto.
Qed.

Lemma fresh_process_battery (silent : bool) (group : Z * list Row)
    (acc : nat * nat) :
  fresh' (process_battery' silent group acc).
Proof.
  intros w. destruct group as [battery_id battery_df].
  rewrite process_battery_eq.
  destruct (check_processed_file (cell_key battery_id) (store w)) eqn:Hskip.
  - exists [CheckProcessed (cell_key battery_id) true].
    split; [reflexivity|]. simpl. split; [constructor|].
    intros k Hin. by apply not_elem_of_nil in Hin.
  - destruct (battery_result battery_id battery_df) as [[line|b]|e] eqn:Hres;
      simpl.
    + exists (CheckProcessed (cell_key battery_id) false
              :: note silent ("Processing battery Battery_"
                              +:+ str_Z battery_id) ++ [Print line]).
      destruct silent; simpl; (split; [reflexivity|]);
        (split; [constructor|]); intros k Hin;
        by apply not_elem_of_nil in Hin.
    + apply battery_result_well_formed in Hres as [_ Hkey].
      exists (CheckProcessed (cell_key battery_id) false
              :: note silent ("Processing battery Battery_"
                              +:+ str_Z battery_id)
              ++ Dump b
              :: (if silent then []
                  else [TqdmWrite ("File: " +:+ cell_id b
                                   +:+ " dumped to pkl file")])).
      split; [|split].
      * destruct silent; reflexivity.
      * destruct silent; simpl; apply NoDup_singleton.
      * intros k Hin.
        assert (k = cell_id b) as ->
          by (destruct silent; simpl in Hin;
              by apply list_elem_of_singleton in Hin).
        by rewrite Hkey.
    + exists (CheckProcessed (cell_key battery_id) false
              :: note silent ("Processing battery Battery_"
                              +:+ str_Z battery_id)).
      destruct silent; simpl; (split; [reflexivity|]);
        (split; [constructor|]); intros k Hin;
        by apply not_elem_of_nil in Hin.
Qed.

(** X18: a run never overwrites a record: the store after the run is the
    store before it after the dumps of the run; no key is dumped twice in a
    run, and no key is dumped that the skip check found before the run.  It
    holds for runs that end with an exception too. *)
Theorem process_never_overwrites (silent : bool) (raw_files : list csv_file)
    (w : World St) :
  ∃ new,
    snd (process' silent raw_files w)
    = mkWorld (replay' new (store w)) (trace w ++ new)
    ∧ NoDup (dumped_keys new)
    ∧ ∀ k, k ∈ dumped_keys new → check_processed_file k (store w) = false.
Proof.
  revert w. change (fresh' (process' silent raw_files)).
  unfold process. destruct raw_files as [|f rest].
  - apply (fresh_console true). apply fresh_ret.
  - apply fresh_console. apply fresh_for_each. intros f' acc.
    unfold process_file. apply fresh_console.
    destruct (read_csv f').
    + apply fresh_for_each. apply fresh_process_battery.
    + apply (fresh_console true). apply fresh_ret.
Qed.

(** *** Running again *)

Local Abbreviation rerunnable' := (rerunnable check_processed_file).

Lemma effects_extends (m : M St (nat * nat)) (acc : nat * nat) :
  effects dump_single_file m acc → ∀ w, extends' (store w) (store (snd (m w))).
Proof.
  intros Hm w. destruct (Hm w) as (new & -> & _). simpl.
  apply replay_extends.
Qed.

Lemma rerunnable_process_battery (silent : bool) :
  rerunnable' (process_battery' silent).
Proof.
  intros [battery_id battery_df] acc wa acc' wa' stF accb wb Hrun Hext Hwb.
  pose proof (effects_extends _ _
                (process_battery_effects check_processed_file dump_single_file
                   silent (battery_id, battery_df) acc) wa) as Hmono.
  rewrite Hrun in Hmono. simpl in Hmono.
  rewrite process_battery_eq in Hrun. rewrite process_battery_eq, Hwb.
  destruct (check_processed_file (cell_key battery_id) stF) eqn:HF.
  - eexists _, _. split; [reflexivity|]. simpl. split; [reflexivity|].
    split; [reflexivity|].
    destruct (check_processed_file (cell_key battery_id) (store wa)).
    + injection Hrun as <- _. simpl. lia.
    + destruct (battery_result battery_id battery_df) as [[line|b]|e];
        simpl in Hrun; [| |discriminate]; injection Hrun as <- _; simpl; lia.
  - assert (Ha : check_processed_file (cell_key battery_id) (store wa) = false).
    { destruct (check_processed_file (cell_key battery_id) (store wa)) eqn:E;
        [|reflexivity].
      apply Hmono, Hext in E. congruence. }
    rewrite Ha in Hrun.
    destruct (battery_result battery_id battery_df) as [[line|b]|e] eqn:Hres;
      simpl in Hrun; [| |discriminate].
    + injection Hrun as <- _. eexists _, _. split; [reflexivity|].
      simpl. split; [reflexivity|]. split; [reflexivity|]. lia.
    + injection Hrun as _ <-. simpl in Hext.
      apply battery_result_well_formed in Hres as [_ Hkey].
      pose proof (dump_visible b (store wa)) as Hvis. rewrite Hkey in Hvis.
      apply Hext in Hvis. congruence.
Qed.

Lemma for_each_extends {A : Type}
    (body : A → nat * nat → M St (nat * nat)) (l : list A) :
  (∀ a acc w, extends' (store w) (store (snd (body a acc w)))) →
  ∀ acc w, extends' (store w) (store (snd (for_each l body acc w))).
Proof.
  intros Hbody. induction l as [|a l IH]; intros acc w;
    [apply extends_refl|].
  simpl. unfold bind. pose proof (Hbody a acc w) as H1.
  destruct (body a acc w) as [[acc1|e] w1]; simpl in *; [|exact H1].
  eapply extends_trans; [exact H1 | apply IH].
Qed.

Lemma rerunnable_for_each {A : Type}
    (body : A → nat * nat → M St (nat * nat)) :
  rerunnable' body →
  (∀ a acc w, extends' (store w) (store (snd (body a acc w)))) →
  rerunnable' (λ l, for_each l body).
Proof.
  intros Hbody Hmono l. induction l as [|a l IH];
    intros acc wa acc' wa' stF accb wb Hrun Hext Hwb.
  - injection Hrun as <- <-. exists accb, wb. simpl.
    split; [reflexivity|]. split; [exact Hwb|]. split; [reflexivity|]. lia.
  - simpl in Hrun. unfold bind in Hrun.
    destruct (body a acc wa) as [[acc1|e] wa1] eqn:Hstep; [|discriminate].
    assert (Hext1 : extends' (store wa1) stF).
    { eapply extends_trans; [|exact Hext].
      pose proof (for_each_extends body l Hmono acc1 wa1) as H.
      by rewrite Hrun in H. }
    destruct (Hbody a acc wa acc1 wa1 stF accb wb Hstep Hext1 Hwb)
      as (accb1 & wb1 & Hstepb & Hwb1 & Hp1 & Hs1).
    destruct (IH acc1 wa1 acc' wa' stF accb1 wb1 Hrun Hext Hwb1)
      as (accb' & wb' & Hrunb & Hwb' & Hp' & Hs').
    exists accb', wb'. simpl. unfold bind. rewrite Hstepb.
    split; [exact Hrunb|]. split; [exact Hwb'|]. split; lia.
Qed.

Lemma rerunnable_process_file (silent : bool) :
  rerunnable' (process_file' silent).
Proof.
  intros f acc wa acc' wa' stF accb wb Hrun Hext Hwb.
  unfold process_file in *. destruct (read_csv f) as [df|e].
  - destruct (console_then (negb silent) ("Processing " +:+ name f)
                (for_each (groupby Battery_ID df) (process_battery' silent) acc)
                wa) as (wa0 & Hwa0 & Heqa).
    destruct (console_then (negb silent) ("Processing " +:+ name f)
                (for_each (groupby Battery_ID df) (process_battery' silent)
                   accb) wb) as (wb0 & Hwb0 & Heqb).
    rewrite Heqa in Hrun. rewrite Heqb.
    apply (rerunnable_for_each (process_battery' silent)
             (rerunnable_process_battery silent)
             (λ g a w, effects_extends _ _
                         (process_battery_effects check_processed_file
                            dump_single_file silent g a) w)
             (groupby Battery_ID df) acc wa0 acc' wa' stF accb wb0 Hrun Hext).
    congruence.
  - destruct (console_then (negb silent) ("Processing " +:+ name f)
                (bind (print ("Error reading " +:+ path f +:+ ": "
                              +:+ str_exn e))
                      (λ _, ret acc)) wa) as (wa0 & Hwa0 & Heqa).
    destruct (console_then (negb silent) ("Processing " +:+ name f)
                (bind (print ("Error reading " +:+ path f +:+ ": "
                              +:+ str_exn e))
                      (λ _, ret accb)) wb) as (wb0 & Hwb0 & Heqb).
    rewrite Heqa in Hrun. rewrite Heqb. injection Hrun as <- _.
    eexists _, _. split; [reflexivity|]. simpl.
    split; [congruence|]. split; [reflexivity|]. lia.
Qed.

(** X19: resuming works: when a run has returned, running [process] again
    on the same files from the store that the run left returns too, dumps
    nothing, leaves the store as it is, reports nothing as processed and
    reports as skipped at least every battery that the first run counted. *)
Theorem process_rerun (silent : bool) (raw_files : list csv_file)
    (w w1 : World St) (p s : nat) :
  process' silent raw_files w = (Ok (p, s), w1) →
  ∃ s2 new,
    process' silent raw_files w1
    = (Ok (0%nat, s2), mkWorld (store w1) (trace w1 ++ new))
    ∧ count_dumps new = 0%nat
    ∧ (p + s ≤ s2)%nat.
Proof.
  intros Hrun.
  assert (H : ∃ s2 w2, process' silent raw_files w1 = (Ok (0%nat, s2), w2)
                ∧ store w2 = store w1 ∧ (p + s ≤ s2)%nat).
  { unfold process in *. destruct raw_files as [|f0 rest].
    - injection Hrun as <- <- <-. eexists _, _. split; [reflexivity|].
      split; [reflexivity | lia].
    - set (files := f0 :: rest) in *.
      destruct (console_then (negb silent)
                  ("Found " +:+ str_nat (length files)
                   +:+ " CSV files to process")
                  (for_each files (process_file' silent) (0%nat, 0%nat)) w)
        as (wa0 & Hwa0 & Heqa).
      destruct (console_then (negb silent)
                  ("Found " +:+ str_nat (length files)
                   +:+ " CSV files to process")
                  (for_each files (process_file' silent) (0%nat, 0%nat)) w1)
        as (wb0 & Hwb0 & Heqb).
      rewrite Heqa in Hrun. rewrite Heqb.
      destruct (rerunnable_for_each (process_file' silent)
                  (rerunnable_process_file silent)
                  (λ f a w0, effects_extends _ _
                               (process_file_effects check_processed_file
                                  dump_single_file silent f a) w0)
                  files (0%nat, 0%nat) wa0 (p, s) w1 (store w1)
                  (0%nat, 0%nat) wb0 Hrun (extends_refl _) Hwb0)
        as ([p2 s2] & w2 & Hrunb & Hw2 & Hp2 & Hs2).
      simpl in Hp2, Hs2. subst p2. exists s2, w2.
      split; [exact Hrunb|]. split; [exact Hw2 | lia]. }
  destruct H as (s2 & w2 & Hrunb & Hw2 & Hs).
  destruct (process_effects check_processed_file dump_single_file silent
              raw_files w1) as (new & Hnew & Hacc).
  rewrite Hrunb in Hnew, Hacc. simpl in Hnew, Hacc.
  destruct (Hacc (0%nat, s2) eq_refl) as [Hd _]. simpl in Hd.
  exists s2, new. rewrite Hrunb. split; [|split; [lia | exact Hs]].
  f_equal. rewrite Hnew. f_equal. rewrite Hnew in Hw2. exact Hw2.
Qed.

End Resume.

(** The sample directory meets the two requirements. *)
Lemma write_pkl_visible (b : BatteryData) (d : directory) :
  pkl_exists (cell_id b) (write_pkl b d) = true.
Proof.
  unfold pkl_exists, write_pkl. simpl. by rewrite String.eqb_refl.
Qed.

Lemma write_pkl_keeps (b : BatteryData) (k : string) (d : directory) :
  pkl_exists k d = true → pkl_exists k (write_pkl b d) = true.
Proof.
  unfold pkl_exists, write_pkl. simpl. intros ->. apply orb_true_r.
Qed.

Lemma process_never_overwrites_witness :
  ∃ new,
    snd (process pkl_exists write_pkl true [mixed_file]
           (mkWorld ["CSV_Battery_3"] []))
    = mkWorld (replay write_pkl new ["CSV_Battery_3"]) ([] ++ new)
    ∧ NoDup (dumped_keys new).
Proof.
  destruct (process_never_overwrites pkl_exists write_pkl write_pkl_visible
              write_pkl_keeps true [mixed_file]
              (mkWorld ["CSV_Battery_3"] []))
    as (new & H1 & H2 & _).
  exists new. split; [exact H1 | exact H2].
Defined.

Lemma process_rerun_witness :
  ∃ s2 new,
    process pkl_exists write_pkl true [mixed_file]
      (snd (process pkl_exists write_pkl true [mixed_file]
              (mkWorld ["CSV_Battery_3"] [])))
    = (Ok (0%nat, s2),
       mkWorld (store (snd (process pkl_exists write_pkl true [mixed_file]
                              (mkWorld ["CSV_Battery_3"] []))))
               (trace (snd (process pkl_exists write_pkl true [mixed_file]
                              (mkWorld ["CSV_Battery_3"] []))) ++ new))
    ∧ count_dumps new = 0%nat ∧ (1 + 1 ≤ s2)%nat.
Proof.
  apply (process_rerun pkl_exists write_pkl write_pkl_visible write_pkl_keeps
           true [mixed_file] (mkWorld ["CSV_Battery_3"] [])).
  rewrite (surjective_pairing (process _ _ _ _ _)) at 1.
  apply (f_equal2 pair); [vm_compute|]; reflexivity.
Defined.

(** ** The script *)

Section ScriptProperties.

Context {St : Type}.
Variable check_processed_file : string → St → bool.
Variable dump_single_file : BatteryData → St → St.
Variable mkdir : St → St.
Variable glob_pkl : St → list string.

Local Abbreviation process' :=
  (process check_processed_file dump_single_file).
Local Abbreviation script' :=
  (process_second_life_phase check_processed_file dump_single_file mkdir
     glob_pkl).
Local Abbreviation main' :=
  (main check_processed_file dump_single_file mkdir glob_pkl).

Lemma oblivious_process (silent : bool) (raw_files : list csv_file) :
  oblivious (process' silent raw_files).
Proof.
  unfold process. destruct raw_files as [|f rest].
  - apply oblivious_bind; [apply oblivious_emit | intros _; apply oblivious_pure].
  - apply oblivious_bind.
    + apply oblivious_when, oblivious_emit.
    + intros _. apply oblivious_for_each. intros f' acc.
      apply oblivious_process_file.
Qed.

Lemma print_names_returns (names : list string) :
  ∀ i (w : World St), fst (print_names i names w) = Ok tt.
Proof.
  induction names as [|file rest IH]; intros i w; [reflexivity|].
  cbn [print_names]. unfold bind at 1, print, emit. cbn. apply IH.
Qed.

Lemma script_result (data_dir_exists : bool) (csv_files : list csv_file)
    (w : World St) :
  fst (script' data_dir_exists csv_files w)
  = Ok (data_dir_exists
        && returns (fst (process' false csv_files
                           (mkWorld (mkdir (store w)) [])))).
Proof.
  unfold process_second_life_phase. destruct data_dir_exists; [|reflexivity].
  cbn [negb andb].
  unfold bind at 1 2 3 4 5 6, print at 1 2 3 4 5, emit, make_output_dir.
  cbn [fst snd store trace]. unfold try_except, bind at 1, print at 1, emit.
  cbn [fst snd store trace]. unfold bind at 1.
  match goal with
  | |- context [process' false csv_files ?w1] =>
      destruct (oblivious_process false csv_files w1
                  (mkWorld (mkdir (store w)) []) eq_refl) as [<- _];
      destruct (process' false csv_files w1) as [[counts|e] w2]
  end.
  - cbn [fst returns].
    unfold bind at 1 2 3 4 5 6, print at 1 2 3 4 5, emit, list_output_dir.
    cbn [fst snd store trace]. unfold bind at 1.
    match goal with
    | |- context [print_names ?i ?names ?w3] =>
        pose proof (print_names_returns names i w3) as Hnames;
        destruct (print_names i names w3) as [r w4]
    end.
    cbn [fst] in Hnames. subst r. unfold bind, when, print, emit, ret.
    by destruct (10 <? length (glob_pkl (store w2)))%nat.
  - reflexivity.
Qed.

(** X20: the script never lets an exception escape, and its exit status is
    0 exactly when the data directory exists and [process], run verbosely on
    the store in which the output directory has been made, returns; in
    every other case it is 1. *)
Theorem main_exit_status (data_dir_exists : bool)
    (csv_files : list csv_file) (w : World St) :
  fst (main' data_dir_exists csv_files w)
  = Ok (if data_dir_exists
           && returns (fst (process' false csv_files
                              (mkWorld (mkdir (store w)) [])))
        then 0%nat else 1%nat).
Proof.
  unfold main, bind at 1.
  pose proof (script_result data_dir_exists csv_files w) as Hres.
  destruct (script' data_dir_exists csv_files w) as [r w1].
  cbn [fst] in Hres. subst r.
  by destruct (data_dir_exists && _).
Qed.


End ScriptProperties.

